(** * geomstats.geometry.matrices: the space of (m, n) matrices

    A shallow embedding of [geomstats/geometry/matrices.py] (classes
    [Matrices] and [MatricesMetric]) and the properties of its operations.

    - Python integers are [Z], Python floats are the binary64 floats of the
      kernel; array dimensions are [nat].
    - Array entries live in an arbitrary real field [F] (exact arithmetic:
      rounding of machine floats is not part of the model).
    - An array is its shape together with its rows, as the numerical
      backend stores it; only the ranks the module documents
      ([shape=[..., m, n]], i.e. one matrix or a batch of matrices) exist.
    - Exceptions are values of an error monad.
    - The pseudo-random source is threaded explicitly. *)

From Stdlib Require Import ZArith Lia String.
From Stdlib Require Floats.
Import PrimFloat.
From HB Require Import structures.
From mathcomp Require Import ssreflect ssrfun ssrbool eqtype ssrnat seq.
From mathcomp Require Import div choice fintype bigop order.
From mathcomp Require Import ssralg ssrnum ssrint rat matrix.

Set Implicit Arguments.
Unset Strict Implicit.
Unset Printing Implicit Defensive.

Import Order.TTheory GRing.Theory Num.Theory.

(** ** Exceptions and the error monad *)

Inductive exn : Type :=
| TypeError
| ValueError
| OverflowError.

(** The spec's ConfigurationError (its InvalidArgument-class error) is the
    error of the validation of [m] and [n]: in Python, a [ValueError]. *)
Definition ConfigurationError : exn := ValueError.

Inductive result (A : Type) : Type :=
| Ok of A
| Err of exn.

Arguments Ok {A} _.
Arguments Err {A} _.

Definition bind {A B : Type} (c : result A) (k : A -> result B) : result B :=
  match c with
  | Ok a => k a
  | Err e => Err e
  end.

Notation "x <- c ;; k" := (bind c (fun x => k))
  (at level 61, c at next level, right associativity).

(** ** Python values handed to the constructor *)

(** Integers (the booleans are the integers 0 and 1), floats ([math.inf]
    and [math.nan] among them), [None] and strings. *)
Inductive pyval : Type :=
| PyInt of Z
| PyFloat of float
| PyNone
| PyStr of string.

Fixpoint str_repeat (s : string) (k : nat) : string :=
  if k is k'.+1 then String.append s (str_repeat s k') else EmptyString.

(** The float an integer is converted to when it meets a float: the nearest
    binary64 value, ties to even; an integer that rounds beyond the largest
    finite float raises. *)
Definition float_of_int (z : Z) : result float :=
  let f := FloatOps.SF2Prim
             (SpecFloat.binary_normalize FloatOps.prec FloatOps.emax z 0 false) in
  if is_infinity f then Err OverflowError else Ok f.

(** The Python product [a * b]: integers multiply; floats multiply, an
    integer beside a float being converted first; a string is repeated by
    an integer (not at all for a count below one); anything else raises. *)
Definition py_mul (a b : pyval) : result pyval :=
  match a, b with
  | PyInt x, PyInt y => Ok (PyInt (x * y))
  | PyFloat x, PyFloat y => Ok (PyFloat (PrimFloat.mul x y))
  | PyInt x, PyFloat y =>
      x' <- float_of_int x ;; Ok (PyFloat (PrimFloat.mul x' y))
  | PyFloat x, PyInt y =>
      y' <- float_of_int y ;; Ok (PyFloat (PrimFloat.mul x y'))
  | PyStr s, PyInt k => Ok (PyStr (str_repeat s (Z.to_nat k)))
  | PyInt k, PyStr s => Ok (PyStr (str_repeat s (Z.to_nat k)))
  | _, _ => Err TypeError
  end.

Definition is_positive_integer (v : pyval) : bool :=
  if v is PyInt z then Z.ltb 0 z else false.

(** Modelled from the spec: [geomstats.error.check_integer] is not among
    the sources.  The spec: construction fails with an InvalidArgument-class
    error (ConfigurationError) if [m] or [n] is not a positive integer.  A
    float is not an integer, whatever its value. *)
Definition check_integer (v : pyval) (name : string) : result Z :=
  match v with
  | PyInt z => if Z.ltb 0 z then Ok z else Err ConfigurationError
  | _ => Err ConfigurationError
  end.

(** Modelled from the spec: the base class [Manifold] is not among the
    sources.  The spec: the space owns dimension = m*n. *)
Module Manifold.
Record t : Type := Build { dim : pyval }.
Definition init (dim : pyval) : result t := Ok (Build dim).
End Manifold.

(** Modelled from the spec: the base class [RiemannianMetric] is not among
    the sources.  The spec: attributes dim = m*n and
    signature = (dim, 0, 0). *)
Module RiemannianMetric.
Record t : Type := Build { dim : pyval; signature : pyval * pyval * pyval }.
Definition init (dim : pyval) (signature : pyval * pyval * pyval) : result t :=
  Ok (Build dim signature).
End RiemannianMetric.

(** [MatricesMetric.__init__] *)
Record MatricesMetric : Type :=
  { metric_super : RiemannianMetric.t }.

Definition MatricesMetric_init (m n : pyval) : result MatricesMetric :=
  dimension <- py_mul m n ;;
  super <- RiemannianMetric.init dimension (dimension, PyInt 0, PyInt 0) ;;
  Ok {| metric_super := super |}.

(** [Matrices.__init__]: the attributes [m] and [n] are stored after both
    checks passed, so they are integers. *)
Record Matrices : Type :=
  { super : Manifold.t;
    m : Z;
    n : Z;
    default_point_type : string;
    metric : MatricesMetric }.

Definition Matrices_init (m n : pyval) : result Matrices :=
  d <- py_mul m n ;;
  super <- Manifold.init d ;;
  vn <- check_integer n "n" ;;
  vm <- check_integer m "m" ;;
  metric <- MatricesMetric_init m n ;;
  Ok {| super := super; m := vm; n := vn;
        default_point_type := "matrix"; metric := metric |}.

Definition dim (self : Matrices) : pyval := Manifold.dim (super self).

(** ** Arrays

    An array of rank 2 carries its shape (m, n) and its m rows; an array of
    rank 3 carries its shape (k, m, n) and its k matrices.  The shape is
    kept beside the rows so that empty axes keep their other extents. *)

Inductive ndarray (T : Type) : Type :=
| Array2 of nat & nat & seq (seq T)
| Array3 of nat & nat & nat & seq (seq (seq T)).

(** The result of reducing the two matrix axes away: one value for a single
    matrix, one value per batch element otherwise. *)
Inductive reduced (T : Type) : Type :=
| Scalar of T
| Vector of seq T.

(** The [size] argument of the sampler: [(m, n)] or [(n_samples, m, n)]. *)
Inductive size_tuple : Type :=
| Size2 of Z & Z
| Size3 of Z & Z & Z.

Section Arrays.

Variable T : Type.

Definition shape (a : ndarray T) : seq nat :=
  match a with
  | Array2 r c _ => [:: r; c]
  | Array3 k r c _ => [:: k; r; c]
  end.

Definition ndim (a : ndarray T) : nat := size (shape a).

Definition wf_rows (r c : nat) (rows : seq (seq T)) : bool :=
  (size rows == r) && all (fun row => size row == c) rows.

(** The rows of an array agree with its shape. *)
Definition wf (a : ndarray T) : bool :=
  match a with
  | Array2 r c rows => wf_rows r c rows
  | Array3 k r c mats => (size mats == k) && all (wf_rows r c) mats
  end.

(** Every array seen as a batch: a single matrix is a batch of one. *)
Definition as_batch (a : ndarray T) : nat * nat * nat * seq (seq (seq T)) :=
  match a with
  | Array2 r c rows => (1, r, c, [:: rows])
  | Array3 k r c mats => (k, r, c, mats)
  end.

(** Modelled from the spec: the backend's [to_ndarray(point, to_ndim=3)] is
    not among the sources.  The spec: reshape point to batched form
    (batch, m, n) if not already ranked that way. *)
Definition to_ndarray3 (point : ndarray T) : ndarray T :=
  match point with
  | Array2 r c rows => Array3 1 r c [:: rows]
  | Array3 _ _ _ _ => point
  end.

(** Broadcasting of one axis: extents must agree unless one of them is 1,
    and an axis of extent 1 is repeated to the common extent. *)
Definition bdim (d1 d2 : nat) : option nat :=
  if d1 == d2 then Some d1
  else if d1 == 1 then Some d2
  else if d2 == 1 then Some d1
  else None.

Definition stretch (A : Type) (d t : nat) (s : seq A) : seq A :=
  if d == t then s else flatten (nseq t s).

Definition stretch_mat (r c r' c' : nat) (rows : seq (seq T)) : seq (seq T) :=
  stretch r r' [seq stretch c c' row | row <- rows].

Definition stretch_batch (k r c k' r' c' : nat) (mats : seq (seq (seq T))) :=
  stretch k k' [seq stretch_mat r c r' c' x | x <- mats].

End Arrays.

Definition map2 (A B C : Type) (f : A -> B -> C) (s : seq A) (t : seq B) :=
  [seq f p.1 p.2 | p <- zip s t].

(** The result of an operation on two arrays has rank 2 only when both
    operands have. *)
Definition from_batch (T U V : Type) (a : ndarray T) (b : ndarray U)
    (k r c : nat) (mats : seq (seq (seq V))) : ndarray V :=
  if (ndim a == 2) && (ndim b == 2) then Array2 r c (head [::] mats)
  else Array3 k r c mats.

(** Modelled from the spec: the backend's elementwise operations are not
    among the sources.  The spec: elementwise arithmetic and comparison
    under the standard broadcasting rules. *)
Definition broadcast2 (T U : Type) (f : T -> T -> U) (a b : ndarray T)
    : result (ndarray U) :=
  let: (ka, ra, ca, xa) := as_batch a in
  let: (kb, rb, cb, xb) := as_batch b in
  match bdim ka kb, bdim ra rb, bdim ca cb with
  | Some k, Some r, Some c =>
      Ok (from_batch a b k r c
            (map2 (map2 (map2 f))
               (stretch_batch ka ra ca k r c xa)
               (stretch_batch kb rb cb k r c xb)))
  | _, _, _ => Err ValueError
  end.

Definition map_array (T U : Type) (f : T -> U) (a : ndarray T) : ndarray U :=
  match a with
  | Array2 r c rows => Array2 r c [seq [seq f x | x <- row] | row <- rows]
  | Array3 k r c mats =>
      Array3 k r c [seq [seq [seq f x | x <- row] | row <- x] | x <- mats]
  end.

(** ** The numerical backend over a real field *)

Section Backend.

Variable F : realFieldType.

Local Open Scope ring_scope.

(** [a + b], [a - b], [- a], [c * a] and [a - c] on arrays. *)
Definition add (a b : ndarray F) : result (ndarray F) :=
  broadcast2 (fun x y => x + y) a b.

Definition sub (a b : ndarray F) : result (ndarray F) :=
  broadcast2 (fun x y => x - y) a b.

Definition neg (a : ndarray F) : ndarray F := map_array (fun x => - x) a.

Definition scale (c : F) (a : ndarray F) : ndarray F :=
  map_array (fun x => c * x) a.

Definition sub_scalar (a : ndarray F) (c : F) : ndarray F :=
  map_array (fun x => x - c) a.

Definition sumr (s : seq F) : F := foldr (fun x acc => x + acc) 0 s.

Definition dot (u v : seq F) : F := sumr (map2 (fun x y => x * y) u v).

Definition col (j : nat) (rows : seq (seq F)) : seq F :=
  [seq nth 0 row j | row <- rows].

(** The product of a matrix with [c]-column right factor [B]. *)
Definition matmul_rows (c : nat) (A B : seq (seq F)) : seq (seq F) :=
  [seq [seq dot row (col j B) | j <- iota 0 c] | row <- A].

(** The transpose of a matrix with [c] columns. *)
Definition transpose_rows (c : nat) (A : seq (seq F)) : seq (seq F) :=
  [seq col j A | j <- iota 0 c].

(** Modelled from the spec: the backend's [matmul] is not among the
    sources.  The spec: standard matrix multiplication with implicit batch
    broadcasting when an operand carries a leading batch dimension;
    incompatible shapes surface as an error. *)
Definition matmul (a b : ndarray F) : result (ndarray F) :=
  let: (ka, ra, ca, xa) := as_batch a in
  let: (kb, rb, cb, xb) := as_batch b in
  if ca != rb then Err ValueError
  else if bdim ka kb is Some k then
    Ok (from_batch a b k ra cb
          (map2 (matmul_rows cb) (stretch ka k xa) (stretch kb k xb)))
  else Err ValueError.

(** Modelled from the spec: the backend's [transpose(mat, axes)] is not
    among the sources.  The spec: axis transposition; [axes = (1, 0)] swaps
    the axes of one matrix, [axes = (0, 2, 1)] swaps the last two axes and
    leaves the batch axis.  Axes that do not match the rank are an error. *)
Definition transpose_10 (a : ndarray F) : result (ndarray F) :=
  match a with
  | Array2 r c rows => Ok (Array2 c r (transpose_rows c rows))
  | Array3 _ _ _ _ => Err ValueError
  end.

Definition transpose_021 (a : ndarray F) : result (ndarray F) :=
  match a with
  | Array2 _ _ _ => Err ValueError
  | Array3 k r c mats => Ok (Array3 k c r [seq transpose_rows c x | x <- mats])
  end.

(** The default relative tolerance of the backend's [isclose], 1e-5. *)
Definition rtol : F := 10%:R ^- 5.

(** Modelled from the spec: the backend's [isclose] is not among the
    sources.  The spec: elementwise approximate equality with absolute
    tolerance [atol]; the relative tolerance keeps its default. *)
Definition isclose (a b : ndarray F) (atol : F) : result (ndarray bool) :=
  broadcast2 (fun x y => `|x - y| <= atol + rtol * `|y|) a b.

Definition all_rows (rows : seq (seq bool)) : bool := all (all id) rows.

(** Modelled from the spec: the backend's [all(x, axes)] is not among the
    sources.  The spec: boolean reduction by logical AND over the given
    axes; an axis beyond the rank is an error. *)
Definition all_axes_01 (x : ndarray bool) : result (reduced bool) :=
  match x with
  | Array2 _ _ rows => Ok (Scalar (all_rows rows))
  | Array3 _ _ c mats =>
      Ok (Vector [seq all (all (fun row => nth true row j)) mats
                 | j <- iota 0 c])
  end.

Definition all_axes_12 (x : ndarray bool) : result (reduced bool) :=
  match x with
  | Array2 _ _ _ => Err ValueError
  | Array3 _ _ _ mats => Ok (Vector [seq all_rows rows | rows <- mats])
  end.

Definition sum_rows (rows : seq (seq F)) : F := sumr [seq sumr row | row <- rows].

(** Modelled from the spec: the backend's [einsum] is not among the
    sources.  The spec, for the subscripts ['...ij,...ij->...']: the sum over
    i, j of the products of entries, contracting the last two axes and
    preserving any leading batch axis. *)
Definition einsum_ij_ij (a b : ndarray F) : result (reduced F) :=
  c <- broadcast2 (fun x y => x * y) a b ;;
  match c with
  | Array2 _ _ rows => Ok (Scalar (sum_rows rows))
  | Array3 _ _ _ mats => Ok (Vector [seq sum_rows rows | rows <- mats])
  end.

(** *** The pseudo-random source

    [random_sample] draws one value and returns the next generator state;
    the arrays are filled in row-major order. *)

Variable rng : Type.
Variable random_sample : rng -> F * rng.

Fixpoint draws (A : Type) (draw : rng -> A * rng) (count : nat) (g : rng)
    : seq A * rng :=
  if count is count'.+1 then
    let: (x, g1) := draw g in
    let: (xs, g2) := draws draw count' g1 in
    (x :: xs, g2)
  else ([::], g).

Definition nonneg (d : Z) : bool := Z.leb 0 d.

(** Modelled from the spec: the backend's [random.rand] is not among
    the sources.  The spec: a uniform random sampler on [0, 1); a negative
    extent is an error. *)
Definition rand (size : size_tuple) (g : rng) : result (ndarray F) * rng :=
  match size with
  | Size2 r c =>
      if nonneg r && nonneg c then
        let: (rows, g') :=
          draws (draws random_sample (Z.to_nat c)) (Z.to_nat r) g in
        (Ok (Array2 (Z.to_nat r) (Z.to_nat c) rows), g')
      else (Err ValueError, g)
  | Size3 k r c =>
      if [&& nonneg k, nonneg r & nonneg c] then
        let: (mats, g') :=
          draws (draws (draws random_sample (Z.to_nat c)) (Z.to_nat r))
                (Z.to_nat k) g in
        (Ok (Array3 (Z.to_nat k) (Z.to_nat r) (Z.to_nat c) mats), g')
      else (Err ValueError, g)
  end.

(** ** [functools.reduce] without initial value *)

Definition reduce (A : Type) (f : A -> A -> result A) (args : seq A)
    : result A :=
  match args with
  | [::] => Err TypeError
  | a :: rest => foldl (fun acc x => v <- acc ;; f v x) (Ok a) rest
  end.

(** ** Class [Matrices] *)

Definition TOLERANCE : F := 10%:R ^- 5.

(** [belongs]: in [mat_dim_1 == self.m & mat_dim_2 == self.n] the operator
    [&] binds tighter than [==], and the two comparisons chain around the
    bitwise conjunction. *)
Definition belongs (self : Matrices) (point : ndarray F) : result bool :=
  let point := to_ndarray3 point in
  match shape point with
  | [:: _; mat_dim_1; mat_dim_2] =>
      let mid := Z.land (m self) (Z.of_nat mat_dim_2) in
      Ok (Z.eqb (Z.of_nat mat_dim_1) mid && Z.eqb mid (n self))
  | _ => Err ValueError
  end.

Definition equal (mat_a mat_b : ndarray F) (atol : F) : result (reduced bool) :=
  let is_vectorized := (ndim mat_a == 3) || (ndim mat_b == 3) in
  close <- isclose mat_a mat_b atol ;;
  if is_vectorized then all_axes_12 close else all_axes_01 close.

Definition mul (args : seq (ndarray F)) : result (ndarray F) :=
  reduce matmul args.

Definition bracket (mat_a mat_b : ndarray F) : result (ndarray F) :=
  ab <- mul [:: mat_a; mat_b] ;;
  ba <- mul [:: mat_b; mat_a] ;;
  sub ab ba.

Definition transpose (mat : ndarray F) : result (ndarray F) :=
  let is_vectorized := ndim mat == 3 in
  if is_vectorized then transpose_021 mat else transpose_10 mat.

Definition is_symmetric (mat : ndarray F) (atol : F) : result (reduced bool) :=
  t <- transpose mat ;;
  equal mat t atol.

Definition is_skew_symmetric (mat : ndarray F) (atol : F)
    : result (reduced bool) :=
  t <- transpose mat ;;
  equal mat (neg t) atol.

Definition to_symmetric (mat : ndarray F) : result (ndarray F) :=
  t <- transpose mat ;;
  s <- add mat t ;;
  Ok (scale (1 / 2%:R) s).

Definition to_skew_symmetric (mat : ndarray F) : result (ndarray F) :=
  t <- transpose mat ;;
  d <- sub mat t ;;
  Ok (scale (1 / 2%:R) d).

Definition random_uniform (self : Matrices) (n_samples : Z) (bound : F)
    (g : rng) : result (ndarray F) * rng :=
  let size :=
    if ~~ Z.eqb n_samples 1 then Size3 n_samples (m self) (n self)
    else Size2 (m self) (n self) in
  let: (u, g') := rand size g in
  (point <- u ;; Ok (scale bound (sub_scalar point (1 / 2%:R))), g').

Definition congruent (mat_1 mat_2 : ndarray F) : result (ndarray F) :=
  t <- transpose mat_2 ;;
  mul [:: mat_2; mat_1; t].

(** ** Class [MatricesMetric] *)

Definition inner_product (self : MatricesMetric)
    (tangent_vec_a tangent_vec_b : ndarray F) (base_point : option (ndarray F))
    : result (reduced F) :=
  einsum_ij_ij tangent_vec_a tangent_vec_b.

End Backend.

(** ** Rows as algebraic matrices

    The rows of a well-formed array denote a matrix of the algebra library;
    the operations of the backend are compared with the algebraic ones
    through [to_mx]. *)

Section Denotation.

Variable F : realFieldType.

Local Open Scope ring_scope.

Definition entry (A : seq (seq F)) (i j : nat) : F := nth 0 (nth [::] A i) j.

Definition to_mx (r c : nat) (A : seq (seq F)) : 'M[F]_(r, c) :=
  \matrix_(i, j) entry A i j.

Definition const_rows (r c : nat) (x : F) : seq (seq F) := nseq r (nseq c x).

Definition zeros_like (a : ndarray F) : ndarray F :=
  match a with
  | Array2 r c _ => Array2 r c (const_rows r c 0)
  | Array3 k r c _ => Array3 k r c (nseq k (const_rows r c 0))
  end.

Definition all_entries (p : pred F) (a : ndarray F) : bool :=
  match a with
  | Array2 _ _ rows => all (all p) rows
  | Array3 _ _ _ mats => all (all (all p)) mats
  end.

(** The symmetric and the skew-symmetric part of one square matrix. *)
Definition sym_rows (c : nat) (A : seq (seq F)) : seq (seq F) :=
  [seq [seq (1 / 2%:R) * x | x <- row]
  | row <- map2 (map2 (fun x y => x + y)) A (transpose_rows c A)].

Definition skew_rows (c : nat) (A : seq (seq F)) : seq (seq F) :=
  [seq [seq (1 / 2%:R) * x | x <- row]
  | row <- map2 (map2 (fun x y => x - y)) A (transpose_rows c A)].

(** The congruence action of one matrix [B] on one matrix [A]. *)
Definition congruent_rows (c : nat) (A B : seq (seq F)) : seq (seq F) :=
  matmul_rows c (matmul_rows c B A) (transpose_rows c B).

(** A chain of single matrices whose extents fit: each operand has as many
    rows as its left neighbour has columns. *)
Fixpoint compatible (c : nat) (args : seq (ndarray F)) : bool :=
  match args with
  | [::] => true
  | Array2 r' p _ :: rest => (c == r') && compatible p rest
  | Array3 _ _ _ _ :: _ => false
  end.

Definition rows_of (a : ndarray F) : seq (seq F) :=
  match a with
  | Array2 _ _ rows => rows
  | Array3 _ _ _ mats => head [::] mats
  end.

Definition cols_of (a : ndarray F) : nat :=
  match a with
  | Array2 _ c _ => c
  | Array3 _ _ c _ => c
  end.

(** The product a1 a2 ... an taken from left to right, on rows. *)
Definition chain_rows (A : seq (seq F)) (rest : seq (ndarray F)) :=
  foldl (fun acc a => matmul_rows (cols_of a) acc (rows_of a)) A rest.

(** The half-open intervals [0, 1) and [-bound/2, bound/2). *)
Definition in_unit (x : F) : bool := (0 <= x) && (x < 1).

Definition in_range (bound x : F) : bool :=
  (- (bound / 2%:R) <= x) && (x < bound / 2%:R).

(** The positive answer of a tolerance test on an array of the shape of [a]:
    one boolean for a matrix, one per element for a batch. *)
Definition all_true_like (a : ndarray F) : reduced bool :=
  match a with
  | Array2 _ _ _ => Scalar true
  | Array3 k _ _ _ => Vector (nseq k true)
  end.

End Denotation.

Arguments in_unit {F} x.

Definition is_square (T : Type) (a : ndarray T) : bool :=
  match a with
  | Array2 r c _ => r == c
  | Array3 _ r c _ => r == c
  end.

(** ** Concrete instances *)

Section Instances.

Local Open Scope ring_scope.

(** The space of (2, 3) matrices, as [Matrices(2, 3)] builds it. *)
Definition space_2_3 : Matrices :=
  {| super := Manifold.Build (PyInt 6);
     m := 2;
     n := 3;
     default_point_type := "matrix";
     metric :=
       {| metric_super :=
            RiemannianMetric.Build (PyInt 6) (PyInt 6, PyInt 0, PyInt 0) |} |}.

Definition zeros_2_3 : ndarray rat := Array2 2 3 (const_rows 2 3 0).

Definition rows_a : seq (seq rat) := [:: [:: 1; 2%:R]; [:: 3%:R; 4%:R]].
Definition rows_b : seq (seq rat) := [:: [:: 0; 1]; [:: - 1; 0]].
Definition rows_s : seq (seq rat) := [:: [:: 2%:R; 1]; [:: 1; 3%:R]].
Definition rows_2_3 : seq (seq rat) := [:: [:: 1; 0; 2%:R]; [:: 0; 1; 1]].
Definition rows_3_1 : seq (seq rat) := [:: [:: 1]; [:: 2%:R]; [:: 3%:R]].

Definition rows_id : seq (seq rat) := [:: [:: 1; 0]; [:: 0; 1]].

Definition mat_id : ndarray rat := Array2 2 2 rows_id.
Definition mat_a : ndarray rat := Array2 2 2 rows_a.
Definition mat_b : ndarray rat := Array2 2 2 rows_b.
Definition mat_s : ndarray rat := Array2 2 2 rows_s.
Definition batch_ab : ndarray rat := Array3 2 2 2 [:: rows_a; rows_b].

(** A small congruential generator with samples 0, 1/4, 1/2, 3/4. *)
Definition lcg_sample (g : nat) : rat * nat :=
  ((g %% 4)%N%:R / 4%:R, ((5 * g + 3) %% 16)%N).

End Instances.

(** ** Further notions used to state properties *)

(** The two matrix extents of an array: rows and columns. *)
Definition matrix_extents (T : Type) (a : ndarray T) : nat * nat :=
  match a with
  | Array2 r c _ => (r, c)
  | Array3 _ r c _ => (r, c)
  end.

Definition is_scalar (T : Type) (x : reduced T) : bool :=
  if x is Scalar _ then true else false.

Section MoreInstances.

Local Open Scope ring_scope.

(** The space of (3, 1) matrices, as [Matrices(3, 1)] builds it. *)
Definition space_3_1 : Matrices :=
  {| super := Manifold.Build (PyInt 3);
     m := 3;
     n := 1;
     default_point_type := "matrix";
     metric :=
       {| metric_super :=
            RiemannianMetric.Build (PyInt 3) (PyInt 3, PyInt 0, PyInt 0) |} |}.

Definition rows_1_2 : seq (seq rat) := [:: [:: 2%:R; - 1]].
Definition rows_1_5 : seq (seq rat) := [:: [:: 0; 0; 0; 0; 0]].
Definition rows_1_3 : seq (seq rat) := [:: [:: 1; 2%:R; 4%:R]].
Definition rows_k : seq (seq rat) := [:: [:: 0; 2%:R]; [:: - 2%:R; 0]].

Definition rows_2_3b : seq (seq rat) := [:: [:: 0; 1; - 1]; [:: 3%:R; 0; 1]].

Definition mat_2_3 : ndarray rat := Array2 2 3 rows_2_3.
Definition mat_2_3b : ndarray rat := Array2 2 3 rows_2_3b.
Definition mat_3_1 : ndarray rat := Array2 3 1 rows_3_1.
Definition mat_1_2 : ndarray rat := Array2 1 2 rows_1_2.
Definition mat_1_3 : ndarray rat := Array2 1 3 rows_1_3.
Definition mat_k : ndarray rat := Array2 2 2 rows_k.
Definition batch_23 : ndarray rat := Array3 2 2 3 [:: rows_2_3; rows_2_3].

(** Two samples of the generator above on the (2, 3) space, bound -1. *)
Definition sample_mirrored : ndarray rat :=
  Array3 2 2 3
    [:: [:: [:: 1 / 2%:R; - (1 / 4%:R); 0]; [:: 1 / 4%:R; 1 / 2%:R; - (1 / 4%:R)]];
        [:: [:: 0; 1 / 4%:R; 1 / 2%:R]; [:: - (1 / 4%:R); 0; 1 / 4%:R]]].

End MoreInstances.

Section MoreDenotation.

Variable F : realFieldType.

Local Open Scope ring_scope.

(** The commutator of two single square matrices, on rows. *)
Definition bracket_rows (c : nat) (A B : seq (seq F)) : seq (seq F) :=
  map2 (map2 (fun x y => x - y)) (matmul_rows c A B) (matmul_rows c B A).

(** The interval (bound/2, -bound/2] that a negative bound produces. *)
Definition in_flipped_range (bound x : F) : bool :=
  (bound / 2%:R < x) && (x <= - (bound / 2%:R)).

Definition neg_rows (A : seq (seq F)) : seq (seq F) :=
  [seq [seq - x | x <- row] | row <- A].

(** The same sum on algebraic matrices. *)
Definition mx_frobenius (r c : nat) (M N : 'M[F]_(r, c)) : F :=
  \sum_i \sum_j M i j * N i j.

(** The sum over all positions of the products of two entries. *)
Definition frobenius (r c : nat) (A B : seq (seq F)) : F :=
  \sum_(i < r) \sum_(j < c) entry A i j * entry B i j.

End MoreDenotation.

(** * Properties *)

(** ** Construction *)

Lemma check_integer_Ok (v : pyval) (name : string) (z : Z) :
  check_integer v name = Ok z -> v = PyInt z /\ Z.lt 0 z.
Proof.
case: v => [x|f||s] //=; case E: (Z.ltb 0 x) => // -[<-].
by split=> //; apply/Z.ltb_lt.
Qed.

Lemma check_integer_Err (v : pyval) (name : string) :
  is_positive_integer v = false ->
  check_integer v name = Err ConfigurationError.
Proof. by case: v => [x|f||s] //= ->. Qed.

(** The product raises only beside a value that is not an integer, and
    never the error of the validation. *)
Lemma py_mul_Err (a b : pyval) (e : exn) :
  py_mul a b = Err e ->
  [/\ is_positive_integer a && is_positive_integer b = false,
      e <> ConfigurationError & e = TypeError \/ e = OverflowError].
Proof.
case: a => [x|f||s]; case: b => [y|g||t] //=; rewrite ?andbF;
  try (by case=> <-; split=> //; left).
- by rewrite /float_of_int; case: is_infinity => //= -[<-]; split=> //; right.
- by rewrite /float_of_int; case: is_infinity => //= -[<-]; split=> //; right.
Qed.

Lemma py_mul_PyInt (x y : Z) : py_mul (PyInt x) (PyInt y) = Ok (PyInt (x * y)).
Proof. by []. Qed.

Lemma Matrices_init_Ok (vm vn : pyval) (self : Matrices) :
  Matrices_init vm vn = Ok self ->
  [/\ vm = PyInt (m self), vn = PyInt (n self),
      Z.lt 0 (m self), Z.lt 0 (n self) &
      dim self = PyInt (m self * n self)].
Proof.
rewrite /Matrices_init.
case Ed: (py_mul vm vn) => [d|e] //=.
case En: (check_integer vn "n") => [zn|e] //=.
case Em: (check_integer vm "m") => [zm|e] //=.
case: (check_integer_Ok En) Ed => -> Hn; case: (check_integer_Ok Em) => -> Hm.
by rewrite py_mul_PyInt => -[<-] /= -[<-].
Qed.

(** What the constructor answers, in the order it works: the product
    [m * n] first, then the validation of [n], then that of [m]. *)
Lemma Matrices_init_not_positive (vm vn : pyval) :
  is_positive_integer vm && is_positive_integer vn = false ->
  Matrices_init vm vn =
  Err (if py_mul vm vn is Err e then e else ConfigurationError).
Proof.
move=> H; rewrite /Matrices_init; case: (py_mul vm vn) => [d|e] //=.
case: vn H => [zn|fn||sn] //=.
by case: (Z.ltb 0 zn) => //=; rewrite andbT => /check_integer_Err ->.
Qed.

(** C9 (amended): construction fails whenever [m] or [n] is not a positive
    integer.  The constructor computes the product [m * n] before it
    validates: when the product raises, its error (a TypeError or an
    OverflowError) is what the caller gets; when it does not, the caller
    gets the ConfigurationError of the validation.  For positive integers
    construction succeeds with [dim = m * n]. *)
Theorem Matrices_init_error_class (vm vn : pyval) :
  if is_positive_integer vm && is_positive_integer vn then
    exists self : Matrices,
      [/\ Matrices_init vm vn = Ok self, vm = PyInt (m self),
          vn = PyInt (n self) & dim self = PyInt (m self * n self)]
  else
    match py_mul vm vn with
    | Ok _ => Matrices_init vm vn = Err ConfigurationError
    | Err e =>
        [/\ Matrices_init vm vn = Err e, e <> ConfigurationError
           & e = TypeError \/ e = OverflowError]
    end.
Proof.
case H: (is_positive_integer vm && is_positive_integer vn).
- case: vm vn H => [zm|fm||sm] [zn|fn||sn] //=; rewrite ?andbF //.
  case/andP=> Hm Hn; rewrite /Matrices_init /= Hn Hm /=.
  by eexists; split.
- rewrite (Matrices_init_not_positive H).
  by case E: (py_mul vm vn) => [d|e] //; case: (py_mul_Err E).
Qed.

(** C9 (counterexample): [Matrices(None, 2)].  [None] is not a positive
    integer and construction fails, but with the TypeError of the product
    [None * 2], raised before any validation, and not with the
    ConfigurationError of the validation. *)
Lemma Matrices_init_None_TypeError :
  [/\ is_positive_integer PyNone = false,
      Matrices_init PyNone (PyInt 2) = Err TypeError &
      Matrices_init PyNone (PyInt 2) <> Err ConfigurationError].
Proof. by []. Qed.

(** The constructor on arguments that are not positive integers: the
    validation rejects them when the product is defined. *)
Lemma Matrices_init_rejected :
  [/\ Matrices_init (PyInt 0) (PyInt 3) = Err ConfigurationError,
      Matrices_init (PyInt 2) (PyInt (-1)) = Err ConfigurationError,
      Matrices_init (PyFloat 2.5) (PyInt 3) = Err ConfigurationError,
      Matrices_init (PyFloat infinity) (PyInt 2) = Err ConfigurationError &
      Matrices_init (PyStr "2") (PyInt 3) = Err ConfigurationError].
Proof. by split; vm_compute. Qed.

(** The constructor on arguments whose product raises: the validation is
    not reached. *)
Lemma Matrices_init_product_raises :
  [/\ Matrices_init (PyInt 2) PyNone = Err TypeError,
      Matrices_init PyNone PyNone = Err TypeError,
      Matrices_init (PyStr "2") (PyStr "3") = Err TypeError,
      Matrices_init (PyStr "2") (PyFloat 3) = Err TypeError &
      Matrices_init (PyInt (2 ^ 1024)) (PyFloat 2.5) = Err OverflowError].
Proof. by split; vm_compute. Qed.

(** ** Membership *)

Section Belongs.

Variable F : realFieldType.

Lemma land_le_l (a b : Z) : Z.le 0 a -> Z.le 0 b -> Z.le (Z.land a b) a.
Proof.
move=> Ha Hb.
rewrite -(Z2N.id a Ha) -(Z2N.id b Hb) -N2Z.inj_land.
exact/N2Z.inj_le/N.land_le_l.
Qed.

(** What the comparison in [belongs] computes on a point whose matrix axes
    have extents [r] and [c]. *)
Lemma belongs_shape (self : Matrices) (X : ndarray F) :
  belongs self X =
  let: (_, r, c, _) := as_batch X in
  let mid := Z.land (m self) (Z.of_nat c) in
  Ok (Z.eqb (Z.of_nat r) mid && Z.eqb mid (n self)).
Proof. by case: X. Qed.

(** On a point of the space's own shape, [belongs] answers whether the
    space is square. *)
Lemma belongs_own_shape (self : Matrices) (rows : seq (seq F)) :
  Z.lt 0 (m self) -> Z.lt 0 (n self) ->
  belongs self (Array2 (Z.to_nat (m self)) (Z.to_nat (n self)) rows) =
  Ok (Z.eqb (m self) (n self)).
Proof.
move=> Hm Hn; rewrite belongs_shape /= !Z2Nat.id; try lia.
congr Ok; case E: (Z.eqb (m self) (n self)).
  by move/Z.eqb_eq: E => <-; rewrite Z.land_diag Z.eqb_refl.
apply/negbTE/negP => /andP [/Z.eqb_eq E1 /Z.eqb_eq E2].
by move/Z.eqb_neq: E; apply; rewrite [LHS]E1.
Qed.

(** A point with one row too many is rejected. *)
Lemma belongs_extra_row (self : Matrices) (rows : seq (seq F)) :
  Z.lt 0 (m self) -> Z.lt 0 (n self) ->
  belongs self (Array2 (Z.to_nat (m self)).+1 (Z.to_nat (n self)) rows) =
  Ok false.
Proof.
move=> Hm Hn; rewrite belongs_shape.
congr Ok; apply/negbTE/negP => /andP [/Z.eqb_eq E1 _].
have Hc : Z.le 0 (Z.of_nat (Z.to_nat (n self))) by lia.
have Hle := @land_le_l (m self) _ (Z.lt_le_incl _ _ Hm) Hc.
move: E1 Hle; rewrite Nat2Z.inj_succ Z2Nat.id; lia.
Qed.

(** A point of another shape can be accepted: the space of (3, 1) matrices
    accepts every point of shape (1, 5), since [3 & 5 = 1]. *)
Lemma belongs_accepts_other_shape (rows : seq (seq F)) :
  exists self : Matrices,
    Matrices_init (PyInt 3) (PyInt 1) = Ok self /\
    belongs self (Array2 1 5 rows) = Ok true.
Proof. by eexists; split; first by reflexivity. Qed.

End Belongs.

(** C1 (the code departs from it): the space of (2, 3) matrices rejects a
    matrix of shape (2, 3), since [2 & 3 = 2] differs from [3]. *)
Theorem belongs_rejects_own_shape :
  exists self : Matrices,
    Matrices_init (PyInt 2) (PyInt 3) = Ok self /\
    belongs self zeros_2_3 = Ok false.
Proof. by eexists; split; first by reflexivity. Qed.

(** ** Lists combined pointwise *)

Section Map2.

Variables (A B C D : Type).

Lemma size_map2 (f : A -> B -> C) s t :
  size (map2 f s t) = minn (size s) (size t).
Proof. by rewrite /map2 size_map size_zip. Qed.

Lemma eq_map2 (f g : A -> B -> C) s t :
  (forall x y, f x y = g x y) -> map2 f s t = map2 g s t.
Proof. by move=> fg; apply: eq_map => p; apply: fg. Qed.

Lemma map2_swap (f : A -> B -> C) s t :
  map2 f s t = map2 (fun y x => f x y) t s.
Proof. by rewrite /map2; elim: s t => [|x s IH] [|y t] //=; rewrite IH. Qed.

Lemma map_map2 (g : C -> D) (f : A -> B -> C) s t :
  [seq g z | z <- map2 f s t] = map2 (fun x y => g (f x y)) s t.
Proof. by rewrite /map2 -map_comp. Qed.

Lemma map2_mapl (g : D -> A) (f : A -> B -> C) s t :
  map2 f [seq g x | x <- s] t = map2 (fun x y => f (g x) y) s t.
Proof. by rewrite /map2; elim: s t => [|x s IH] [|y t] //=; rewrite IH. Qed.

Lemma map2_mapr (g : D -> B) (f : A -> B -> C) s t :
  map2 f s [seq g y | y <- t] = map2 (fun x y => f x (g y)) s t.
Proof. by rewrite /map2; elim: s t => [|x s IH] [|y t] //=; rewrite IH. Qed.

Lemma map2_diag (f : A -> A -> C) s :
  map2 f s s = [seq f x x | x <- s].
Proof. by rewrite /map2; elim: s => [|x s IH] //=; rewrite IH. Qed.

Lemma nth_map2 (f : A -> B -> C) x0 y0 z0 s t i :
  i < size s -> size s = size t ->
  nth z0 (map2 f s t) i = f (nth x0 s i) (nth y0 t i).
Proof.
move=> Hi Est; rewrite (nth_map (x0, y0)) ?nth_zip //.
by rewrite size_zip -Est minnn.
Qed.

End Map2.

Lemma map_cst_in (T : eqType) (U : Type) (f : T -> U) (y : U) (s : seq T) :
  {in s, forall x, f x = y} -> [seq f x | x <- s] = nseq (size s) y.
Proof.
elim: s => [|x s IH] //= fy; rewrite fy ?mem_head // IH // => z zs.
by apply: fy; rewrite inE zs orbT.
Qed.

Lemma stretch_id (A : Type) (d : nat) (s : seq A) : stretch d d s = s.
Proof. by rewrite /stretch eqxx. Qed.

Lemma stretch_mat_id (T : Type) (r c : nat) (rows : seq (seq T)) :
  stretch_mat r c r c rows = rows.
Proof.
rewrite /stretch_mat stretch_id -[RHS]map_id.
by apply: eq_map => row; rewrite stretch_id.
Qed.

Lemma stretch_batch_id (T : Type) (k r c : nat) (mats : seq (seq (seq T))) :
  stretch_batch k r c k r c mats = mats.
Proof.
rewrite /stretch_batch stretch_id -[RHS]map_id.
by apply: eq_map => x; rewrite stretch_mat_id.
Qed.

Lemma bdim_id (d : nat) : bdim d d = Some d.
Proof. by rewrite /bdim eqxx. Qed.

(** An elementwise operation on two arrays of one shape combines their
    entries position by position. *)
Lemma broadcast2_Array2 (T U : Type) (f : T -> T -> U) r c A B :
  broadcast2 f (Array2 r c A) (Array2 r c B) =
  Ok (Array2 r c (map2 (map2 f) A B)).
Proof.
by rewrite /broadcast2 /= !bdim_id !stretch_batch_id.
Qed.

Lemma broadcast2_Array3 (T U : Type) (f : T -> T -> U) k r c A B :
  broadcast2 f (Array3 k r c A) (Array3 k r c B) =
  Ok (Array3 k r c (map2 (map2 (map2 f)) A B)).
Proof.
by rewrite /broadcast2 /= !bdim_id !stretch_batch_id.
Qed.

(** ** Refinement: the rows of an array and the matrix they denote *)

Section Refinement.

Variable F : realFieldType.

Local Open Scope ring_scope.

Implicit Types (A B : seq (seq F)) (r c p : nat).

Lemma wf_rows_size r c A : wf_rows r c A -> size A = r.
Proof. by case/andP => /eqP. Qed.

Lemma wf_rows_nth r c A i : wf_rows r c A -> (i < r)%N -> size (nth [::] A i) = c.
Proof.
case/andP => /eqP <- /all_nthP Hall Hi.
exact/eqP/Hall.
Qed.

(** Two well-formed row lists denoting the same matrix are equal. *)
Lemma to_mx_inj r c A B :
  wf_rows r c A -> wf_rows r c B -> to_mx r c A = to_mx r c B -> A = B.
Proof.
move=> wA wB E.
apply: (@eq_from_nth _ [::]); first by rewrite (wf_rows_size wA) (wf_rows_size wB).
rewrite (wf_rows_size wA) => i Hi.
apply: (@eq_from_nth _ 0); first by rewrite (wf_rows_nth wA Hi) (wf_rows_nth wB Hi).
rewrite (wf_rows_nth wA Hi) => j Hj.
by move/matrixP/(_ (Ordinal Hi) (Ordinal Hj)): E; rewrite !mxE.
Qed.

Lemma wf_rows_map2 (f : F -> F -> F) r c A B :
  wf_rows r c A -> wf_rows r c B -> wf_rows r c (map2 (map2 f) A B).
Proof.
move=> wA wB; have sA := wf_rows_size wA; have sB := wf_rows_size wB.
rewrite /wf_rows size_map2 sA sB minnn eqxx /=.
apply/(all_nthP [::]) => i; rewrite size_map2 sA sB minnn => Hi.
rewrite (@nth_map2 _ _ _ _ [::] [::]) ?sA ?sB // size_map2.
by rewrite (wf_rows_nth wA Hi) (wf_rows_nth wB Hi) minnn.
Qed.

Lemma entry_map2 (f : F -> F -> F) r c A B i j :
  wf_rows r c A -> wf_rows r c B -> (i < r)%N -> (j < c)%N ->
  entry (map2 (map2 f) A B) i j = f (entry A i j) (entry B i j).
Proof.
move=> wA wB Hi Hj; have sA := wf_rows_size wA; have sB := wf_rows_size wB.
rewrite /entry (@nth_map2 _ _ _ _ [::] [::]) ?sA ?sB //.
by rewrite (@nth_map2 _ _ _ _ 0 0) ?(wf_rows_nth wA Hi) ?(wf_rows_nth wB Hi).
Qed.

Lemma wf_rows_map (f : F -> F) r c A :
  wf_rows r c A -> wf_rows r c [seq [seq f x | x <- row] | row <- A].
Proof.
case/andP => sA /allP Hall; rewrite /wf_rows size_map sA /=.
by apply/allP => _ /mapP [row /Hall Hrow ->]; rewrite size_map.
Qed.

Lemma entry_map (f : F -> F) r c A i j :
  wf_rows r c A -> (i < r)%N -> (j < c)%N ->
  entry [seq [seq f x | x <- row] | row <- A] i j = f (entry A i j).
Proof.
move=> wA Hi Hj; rewrite /entry.
rewrite (nth_map [::]) ?(wf_rows_size wA) // (nth_map 0) //.
by rewrite (wf_rows_nth wA Hi).
Qed.

Lemma to_mx_add r c A B :
  wf_rows r c A -> wf_rows r c B ->
  to_mx r c (map2 (map2 (fun x y => x + y)) A B) = to_mx r c A + to_mx r c B.
Proof.
by move=> wA wB; apply/matrixP => i j; rewrite !mxE (entry_map2 _ wA wB).
Qed.

Lemma to_mx_sub r c A B :
  wf_rows r c A -> wf_rows r c B ->
  to_mx r c (map2 (map2 (fun x y => x - y)) A B) = to_mx r c A - to_mx r c B.
Proof.
by move=> wA wB; apply/matrixP => i j; rewrite !mxE (entry_map2 _ wA wB).
Qed.

Lemma to_mx_scale r c (a : F) A :
  wf_rows r c A ->
  to_mx r c [seq [seq a * x | x <- row] | row <- A] = a *: to_mx r c A.
Proof.
by move=> wA; apply/matrixP => i j; rewrite !mxE (entry_map _ wA).
Qed.

Lemma to_mx_neg r c A :
  wf_rows r c A ->
  to_mx r c [seq [seq - x | x <- row] | row <- A] = - to_mx r c A.
Proof.
by move=> wA; apply/matrixP => i j; rewrite !mxE (entry_map _ wA).
Qed.

(** *** Transposition *)

Lemma size_col j A : size (col j A) = size A.
Proof. by rewrite size_map. Qed.

Lemma nth_col j A i : (i < size A)%N -> nth 0 (col j A) i = entry A i j.
Proof. by move=> Hi; rewrite (nth_map [::]). Qed.

Lemma wf_rows_transpose r c A :
  wf_rows r c A -> wf_rows c r (transpose_rows c A).
Proof.
move=> wA; rewrite /wf_rows size_map size_iota eqxx /=.
by apply/allP => _ /mapP [j _ ->]; rewrite size_col (wf_rows_size wA).
Qed.

Lemma entry_transpose r c A i j :
  wf_rows r c A -> (i < r)%N -> (j < c)%N ->
  entry (transpose_rows c A) j i = entry A i j.
Proof.
move=> wA Hi Hj; rewrite /entry (nth_map 0%N) ?size_iota //.
by rewrite nth_iota // add0n nth_col // (wf_rows_size wA).
Qed.

Lemma to_mx_transpose r c A :
  wf_rows r c A -> to_mx c r (transpose_rows c A) = (to_mx r c A)^T.
Proof.
by move=> wA; apply/matrixP => j i; rewrite !mxE (entry_transpose wA).
Qed.

(** *** Products *)

Lemma sumrE (s : seq F) : sumr s = \sum_(x <- s) x.
Proof. by rewrite /sumr foldrE. Qed.

Lemma dotE c (u v : seq F) :
  size u = c -> size v = c ->
  dot u v = \sum_(k < c) nth 0 u k * nth 0 v k.
Proof.
move=> su sv; rewrite /dot sumrE /map2 big_map (big_nth (0, 0)).
rewrite size_zip su sv minnn big_mkord.
by apply: eq_bigr => k _; rewrite nth_zip ?su ?sv.
Qed.

Lemma wf_rows_matmul r c p A B :
  wf_rows r c A -> wf_rows r p (matmul_rows p A B).
Proof.
move=> wA; rewrite /wf_rows size_map (wf_rows_size wA) eqxx /=.
by apply/allP => _ /mapP [row _ ->]; rewrite size_map size_iota.
Qed.

Lemma entry_matmul r c p A B i j :
  wf_rows r c A -> wf_rows c p B -> (i < r)%N -> (j < p)%N ->
  entry (matmul_rows p A B) i j = \sum_(k < c) entry A i k * entry B k j.
Proof.
move=> wA wB Hi Hj; rewrite /entry (nth_map [::]) ?(wf_rows_size wA) //.
rewrite (nth_map 0%N) ?size_iota // nth_iota // add0n.
rewrite (@dotE c) ?size_col ?(wf_rows_size wB) ?(wf_rows_nth wA Hi) //.
by apply: eq_bigr => k _; rewrite nth_col // (wf_rows_size wB).
Qed.

(** The product of the backend is the product of matrices. *)
Lemma to_mx_matmul r c p A B :
  wf_rows r c A -> wf_rows c p B ->
  to_mx r p (matmul_rows p A B) = to_mx r c A *m to_mx c p B.
Proof.
move=> wA wB; apply/matrixP => i j; rewrite !mxE (entry_matmul wA wB) //.
by apply: eq_bigr => k _; rewrite !mxE.
Qed.

End Refinement.

(** ** Symmetric and skew-symmetric parts *)

Section Symmetrization.

Variable F : realFieldType.

Local Open Scope ring_scope.

Implicit Types (A B : seq (seq F)) (X : ndarray F) (k r c : nat).

Lemma map2_self (T U V : Type) (f : T -> U -> V) (g : T -> U) (s : seq T) :
  map2 f s [seq g x | x <- s] = [seq f x (g x) | x <- s].
Proof. by rewrite map2_mapr map2_diag. Qed.

Lemma map2_map_map (T U V W : Type) (f : U -> V -> W) (g : T -> U)
    (h : T -> V) (s : seq T) :
  map2 f [seq g x | x <- s] [seq h x | x <- s] = [seq f (g x) (h x) | x <- s].
Proof. by rewrite map2_mapl map2_mapr map2_diag. Qed.

Lemma map_id_in_wf r c (g : seq (seq F) -> seq (seq F)) (s : seq (seq (seq F))) :
  (forall A, wf_rows r c A -> g A = A) ->
  all (wf_rows r c) s -> [seq g A | A <- s] = s.
Proof.
move=> gid /allP ws; rewrite -[RHS]map_id.
by apply/eq_in_map => A /ws /gid.
Qed.

Lemma transpose_Array2 r c A :
  transpose (Array2 r c A) = Ok (Array2 c r (transpose_rows c A)).
Proof. by []. Qed.

Lemma transpose_Array3 k r c (s : seq (seq (seq F))) :
  transpose (Array3 k r c s) =
  Ok (Array3 k c r [seq transpose_rows c A | A <- s]).
Proof. by []. Qed.

Lemma to_symmetric_Array2 c A :
  to_symmetric (Array2 c c A) = Ok (Array2 c c (sym_rows c A)).
Proof. by rewrite /to_symmetric transpose_Array2 /= /add broadcast2_Array2. Qed.

Lemma to_skew_symmetric_Array2 c A :
  to_skew_symmetric (Array2 c c A) = Ok (Array2 c c (skew_rows c A)).
Proof.
by rewrite /to_skew_symmetric transpose_Array2 /= /sub broadcast2_Array2.
Qed.

Lemma to_symmetric_Array3 k c (s : seq (seq (seq F))) :
  to_symmetric (Array3 k c c s) = Ok (Array3 k c c [seq sym_rows c A | A <- s]).
Proof.
rewrite /to_symmetric transpose_Array3 /= /add broadcast2_Array3 /=.
by rewrite map2_self -map_comp.
Qed.

Lemma to_skew_symmetric_Array3 k c (s : seq (seq (seq F))) :
  to_skew_symmetric (Array3 k c c s) =
  Ok (Array3 k c c [seq skew_rows c A | A <- s]).
Proof.
rewrite /to_skew_symmetric transpose_Array3 /= /sub broadcast2_Array3 /=.
by rewrite map2_self -map_comp.
Qed.

Lemma wf_sym_rows c A : wf_rows c c A -> wf_rows c c (sym_rows c A).
Proof.
by move=> wA; apply/wf_rows_map/wf_rows_map2 => //; apply: wf_rows_transpose.
Qed.

Lemma wf_skew_rows c A : wf_rows c c A -> wf_rows c c (skew_rows c A).
Proof.
by move=> wA; apply/wf_rows_map/wf_rows_map2 => //; apply: wf_rows_transpose.
Qed.

Lemma to_mx_sym c A :
  wf_rows c c A ->
  to_mx c c (sym_rows c A) = (1 / 2%:R) *: (to_mx c c A + (to_mx c c A)^T).
Proof.
move=> wA; have wT := wf_rows_transpose wA.
by rewrite /sym_rows to_mx_scale ?wf_rows_map2 // to_mx_add // to_mx_transpose.
Qed.

Lemma to_mx_skew c A :
  wf_rows c c A ->
  to_mx c c (skew_rows c A) = (1 / 2%:R) *: (to_mx c c A - (to_mx c c A)^T).
Proof.
move=> wA; have wT := wf_rows_transpose wA.
by rewrite /skew_rows to_mx_scale ?wf_rows_map2 // to_mx_sub // to_mx_transpose.
Qed.

Lemma half_double (x : F) : 1 / 2%:R * (x + x) = x.
Proof.
by rewrite -mulr2n -[x *+ 2]mulr_natl mulrA div1r mulVf ?mul1r // pnatr_eq0.
Qed.

(** The two parts of one matrix add up to it. *)
Lemma sym_skew_rows c A :
  wf_rows c c A ->
  map2 (map2 (fun x y => x + y)) (sym_rows c A) (skew_rows c A) = A.
Proof.
move=> wA; apply: (@to_mx_inj _ c c) => //.
  by apply: wf_rows_map2; [apply: wf_sym_rows | apply: wf_skew_rows].
rewrite to_mx_add ?wf_sym_rows ?wf_skew_rows // to_mx_sym // to_mx_skew //.
rewrite -scalerDr addrACA subrr addr0.
by apply/matrixP => i j; rewrite !mxE half_double.
Qed.

(** The symmetric part is its own transpose. *)
Lemma sym_rows_transpose c A :
  wf_rows c c A -> transpose_rows c (sym_rows c A) = sym_rows c A.
Proof.
move=> wA; have wS := wf_sym_rows wA.
apply: (@to_mx_inj _ c c) => //; first exact: wf_rows_transpose.
rewrite to_mx_transpose // to_mx_sym // linearZ /= linearD /= trmxK.
by rewrite addrC.
Qed.

(** The skew-symmetric part is the negation of its transpose. *)
Lemma skew_rows_transpose c A :
  wf_rows c c A ->
  [seq [seq - x | x <- row] | row <- transpose_rows c (skew_rows c A)] =
  skew_rows c A.
Proof.
move=> wA; have wK := wf_skew_rows wA; have wT := wf_rows_transpose wK.
apply: (@to_mx_inj _ c c) => //; first exact: wf_rows_map.
rewrite to_mx_neg // to_mx_transpose // to_mx_skew //.
by rewrite linearZ /= linearB /= trmxK -scalerN opprB.
Qed.

Lemma TOLERANCE_ge0 : 0 <= TOLERANCE F.
Proof. by rewrite /TOLERANCE invr_ge0 exprn_ge0 // ler0n. Qed.

Lemma rtol_ge0 : 0 <= rtol F.
Proof. by rewrite /rtol invr_ge0 exprn_ge0 // ler0n. Qed.

Lemma isclose_refl (atol x : F) :
  0 <= atol -> `|x - x| <= atol + rtol F * `|x|.
Proof.
move=> Ha; rewrite subrr normr0 addr_ge0 // mulr_ge0 //.
exact: rtol_ge0.
Qed.

Lemma all_rows_diag (p : F -> F -> bool) A :
  (forall x, p x x) -> all_rows (map2 (map2 p) A A).
Proof.
move=> pxx; rewrite /all_rows map2_diag all_map; apply/allP => row _ /=.
by rewrite map2_diag all_map; apply/allP => x _ /=.
Qed.

Lemma map_cst_true (T : Type) (f : T -> bool) (s : seq T) :
  (forall x, f x) -> [seq f x | x <- s] = nseq (size s) true.
Proof. by move=> ft; elim: s => [|x s IH] //=; rewrite ft IH. Qed.

(** An array is close to itself, whatever the tolerance. *)
Lemma equal_refl X (atol : F) :
  wf X -> 0 <= atol -> equal X X atol = Ok (all_true_like X).
Proof.
case: X => [r c A|k r c s] /= wX Ha; rewrite /equal /isclose /=.
  rewrite broadcast2_Array2 /= all_rows_diag // => x.
  exact: isclose_refl.
rewrite broadcast2_Array3 /= map2_diag -map_comp.
case/andP: wX => /eqP <- _; congr (Ok (Vector _)).
apply: map_cst_true => A /=; apply: all_rows_diag => x.
exact: isclose_refl.
Qed.

(** C2: the symmetric and the skew-symmetric part of a square matrix, or of
    a batch of square matrices, add up to it entry by entry. *)
Theorem to_symmetric_add_to_skew_symmetric X :
  wf X -> is_square X ->
  exists S K : ndarray F,
    [/\ to_symmetric X = Ok S, to_skew_symmetric X = Ok K & add S K = Ok X].
Proof.
case: X => [r c A|k r c s] /= wX /eqP Erc; rewrite {r}Erc in wX *.
  exists (Array2 c c (sym_rows c A)), (Array2 c c (skew_rows c A)).
  rewrite to_symmetric_Array2 to_skew_symmetric_Array2; split=> //.
  by rewrite /add broadcast2_Array2 sym_skew_rows.
exists (Array3 k c c [seq sym_rows c A | A <- s]),
       (Array3 k c c [seq skew_rows c A | A <- s]).
rewrite to_symmetric_Array3 to_skew_symmetric_Array3; split=> //.
rewrite /add broadcast2_Array3 map2_map_map.
case/andP: wX => _ ws; congr (Ok (Array3 _ _ _ _)).
by apply: (map_id_in_wf _ ws) => A; apply: sym_skew_rows.
Qed.

(** C3: the symmetric part of a square matrix equals its own transpose and
    passes [is_symmetric] at the default tolerance; the skew-symmetric part
    equals the negation of its transpose and passes [is_skew_symmetric]. *)
Theorem to_symmetric_is_symmetric X :
  wf X -> is_square X ->
  exists S K T : ndarray F,
    [/\ to_symmetric X = Ok S, transpose S = Ok S &
        is_symmetric S (TOLERANCE F) = Ok (all_true_like X)] /\
    [/\ to_skew_symmetric X = Ok K, transpose K = Ok T, K = neg T &
        is_skew_symmetric K (TOLERANCE F) = Ok (all_true_like X)].
Proof.
case: X => [r c A|k r c s] /= wX /eqP Erc; rewrite {r}Erc in wX *.
  have wS := wf_sym_rows wX; have wK := wf_skew_rows wX.
  exists (Array2 c c (sym_rows c A)), (Array2 c c (skew_rows c A)),
         (Array2 c c (transpose_rows c (skew_rows c A))).
  rewrite to_symmetric_Array2 to_skew_symmetric_Array2.
  rewrite /is_symmetric /is_skew_symmetric !transpose_Array2 /=.
  rewrite sym_rows_transpose // skew_rows_transpose //.
  by split; split=> //; rewrite (@equal_refl (Array2 c c _)) // TOLERANCE_ge0.
case/andP: wX => /eqP sk ws.
have wS : all (wf_rows c c) [seq sym_rows c A | A <- s].
  by rewrite all_map; apply: sub_all ws => A; apply: wf_sym_rows.
have wK : all (wf_rows c c) [seq skew_rows c A | A <- s].
  by rewrite all_map; apply: sub_all ws => A; apply: wf_skew_rows.
have ES : [seq transpose_rows c A | A <- [seq sym_rows c A | A <- s]] =
          [seq sym_rows c A | A <- s].
  rewrite -map_comp; apply/eq_in_map => A /(allP ws) wA /=.
  exact: sym_rows_transpose.
have EK : [seq [seq [seq - x | x <- row] | row <- A]
          | A <- [seq transpose_rows c A | A <- [seq skew_rows c A | A <- s]]] =
          [seq skew_rows c A | A <- s].
  rewrite -!map_comp; apply/eq_in_map => A /(allP ws) wA /=.
  exact: skew_rows_transpose.
exists (Array3 k c c [seq sym_rows c A | A <- s]),
       (Array3 k c c [seq skew_rows c A | A <- s]),
       (Array3 k c c [seq transpose_rows c A | A <- [seq skew_rows c A | A <- s]]).
rewrite to_symmetric_Array3 to_skew_symmetric_Array3.
rewrite /is_symmetric /is_skew_symmetric !transpose_Array3 /= ES EK.
split; split=> //.
- by rewrite (@equal_refl (Array3 k c c _)) ?TOLERANCE_ge0 //= size_map sk eqxx.
- by rewrite (@equal_refl (Array3 k c c _)) ?TOLERANCE_ge0 //= size_map sk eqxx.
Qed.

End Symmetrization.

(** ** Products and the commutator *)

Section Products.

Variable F : realFieldType.

Local Open Scope ring_scope.

Implicit Types (A B : seq (seq F)) (X Y : ndarray F) (k r c p : nat).

Lemma matmul_Array2 r c p A B :
  matmul (Array2 r c A) (Array2 c p B) = Ok (Array2 r p (matmul_rows p A B)).
Proof. by rewrite /matmul /= eqxx. Qed.

Lemma matmul_Array3 k r c p (s t : seq (seq (seq F))) :
  matmul (Array3 k r c s) (Array3 k c p t) =
  Ok (Array3 k r p (map2 (matmul_rows p) s t)).
Proof. by rewrite /matmul /= eqxx /= bdim_id !stretch_id. Qed.

Lemma mul2 X Y : mul [:: X; Y] = matmul X Y.
Proof. by []. Qed.

Lemma sub_rows_anti A B :
  map2 (map2 (fun x y => x - y)) A B =
  [seq [seq - x | x <- row] | row <- map2 (map2 (fun x y => x - y)) B A].
Proof.
rewrite map_map2 [RHS]map2_swap; apply: eq_map2 => u v.
by rewrite map_map2 [RHS]map2_swap; apply: eq_map2 => x y; rewrite opprB.
Qed.

Lemma sub_rows_diag r c A :
  wf_rows r c A -> map2 (map2 (fun x y => x - y)) A A = const_rows r c 0.
Proof.
move=> wA; apply: (@to_mx_inj _ r c); first exact: wf_rows_map2.
  by rewrite /wf_rows /const_rows size_nseq eqxx all_nseq /= size_nseq eqxx orbT.
rewrite to_mx_sub // subrr; apply/matrixP => i j.
by rewrite !mxE /entry /const_rows nth_nseq ltn_ord nth_nseq ltn_ord.
Qed.

Lemma bracket_Array2 c A B :
  bracket (Array2 c c A) (Array2 c c B) =
  Ok (Array2 c c (map2 (map2 (fun x y => x - y))
                    (matmul_rows c A B) (matmul_rows c B A))).
Proof. by rewrite /bracket !mul2 !matmul_Array2 /= /sub broadcast2_Array2. Qed.

Lemma bracket_Array3 k c (s t : seq (seq (seq F))) :
  bracket (Array3 k c c s) (Array3 k c c t) =
  Ok (Array3 k c c (map2 (map2 (map2 (fun x y => x - y)))
                      (map2 (matmul_rows c) s t) (map2 (matmul_rows c) t s))).
Proof. by rewrite /bracket !mul2 !matmul_Array3 /= /sub broadcast2_Array3. Qed.

(** C4: the commutator of two square matrices of one shape changes sign
    when its arguments are exchanged, and the commutator of a matrix with
    itself is the zero matrix. *)
Theorem bracket_antisymmetric X Y :
  wf X -> wf Y -> is_square X -> shape X = shape Y ->
  exists P Q : ndarray F,
    [/\ bracket X Y = Ok P, bracket Y X = Ok Q, P = neg Q &
        bracket X X = Ok (zeros_like X)].
Proof.
case: X => [r c A|k r c s]; case: Y => [r' c' B|k' r' c' t] //= wX wY.
  move=> /eqP Erc [Er Ec]; subst r' c' r.
  rewrite !bracket_Array2; do 2!eexists; split; try by reflexivity.
    by rewrite /= -sub_rows_anti.
  by rewrite (@sub_rows_diag c c) // (wf_rows_matmul _ _ wX).
move=> /eqP Erc [Ek Er Ec]; subst k' r' c' r.
rewrite !bracket_Array3; do 2!eexists; split; try by reflexivity.
  rewrite /=; congr (Array3 _ _ _ _); rewrite map_map2 [RHS]map2_swap.
  by apply: eq_map2 => U V; rewrite -sub_rows_anti.
case/andP: wX => /eqP sk ws; congr (Ok (Array3 _ _ _ _)).
rewrite !map2_diag -map_comp -sk; apply: map_cst_in => A /(allP ws) wA /=.
by rewrite (@sub_rows_diag c c) // (wf_rows_matmul _ _ wA).
Qed.


(** *** The chained product *)

Lemma mul_nil : mul ([::] : seq (ndarray F)) = Err TypeError.
Proof. by []. Qed.

Lemma mul1 X : mul [:: X] = Ok X.
Proof. by []. Qed.

Lemma mul_rcons X (s : seq (ndarray F)) Y :
  mul (rcons (X :: s) Y) = (P <- mul (X :: s) ;; matmul P Y).
Proof. by rewrite /mul /reduce rcons_cons foldl_rcons. Qed.

Lemma mul_cons2 X Y (s : seq (ndarray F)) :
  mul [:: X, Y & s] =
  foldl (fun acc Z => v <- acc ;; matmul v Z) (matmul X Y) s.
Proof. by []. Qed.

Lemma mul_compatible r c A (rest : seq (ndarray F)) :
  compatible c rest ->
  mul (Array2 r c A :: rest) =
  Ok (Array2 r (last c [seq cols_of a | a <- rest]) (chain_rows A rest)).
Proof.
elim: rest r c A => [|Y rest IH] r c A //.
case: Y => [r' p B|k' r' p B] //; rewrite [X in X -> _]/=.
move=> /andP [/eqP <- Hrest]; rewrite mul_cons2 matmul_Array2.
exact: (IH r p _ Hrest).
Qed.

(** C7: [mul] of no argument fails, [mul] of one argument returns it, and
    [mul] of more arguments multiplies them from left to right. *)
Theorem mul_left_to_right :
  [/\ mul ([::] : seq (ndarray F)) = Err TypeError,
      forall X, mul [:: X] = Ok X,
      forall X s Y, mul (rcons (X :: s) Y) = (P <- mul (X :: s) ;; matmul P Y)
    & forall r c A rest,
        compatible c rest ->
        mul (Array2 r c A :: rest) =
        Ok (Array2 r (last c [seq cols_of a | a <- rest]) (chain_rows A rest))].
Proof.
split=> [|X|X s Y|r c A rest Hrest].
- exact: mul_nil.
- exact: mul1.
- exact: mul_rcons.
- exact: mul_compatible.
Qed.

(** *** The congruence action *)

Lemma bind_Ok (T U : Type) (a : T) (f : T -> result U) :
  (x <- Ok a ;; f x) = f a.
Proof. by []. Qed.

Lemma mul3 X Y Z : mul [:: X; Y; Z] = (P <- matmul X Y ;; matmul P Z).
Proof. by []. Qed.

Lemma congruent_Array2 c A B :
  congruent (Array2 c c A) (Array2 c c B) =
  Ok (Array2 c c (congruent_rows c A B)).
Proof.
by rewrite /congruent transpose_Array2 bind_Ok mul3 matmul_Array2 bind_Ok
           matmul_Array2.
Qed.

Lemma map2_map2_map (T U V W Z : Type) (f : V -> W -> Z) (g : T -> U -> V)
    (h : T -> W) (s : seq T) (t : seq U) :
  size s = size t ->
  map2 f (map2 g s t) [seq h x | x <- s] = map2 (fun x y => f (g x y) (h x)) s t.
Proof.
rewrite /map2; elim: s t => [|x s IH] [|y t] //= [Est].
by rewrite IH.
Qed.

Lemma congruent_Array3 k c (s t : seq (seq (seq F))) :
  size t = size s ->
  congruent (Array3 k c c s) (Array3 k c c t) =
  Ok (Array3 k c c (map2 (fun B A => congruent_rows c A B) t s)).
Proof.
move=> Est; rewrite /congruent transpose_Array3 bind_Ok mul3 matmul_Array3.
by rewrite bind_Ok matmul_Array3 map2_map2_map.
Qed.

Lemma wf_congruent_rows c A B :
  wf_rows c c B -> wf_rows c c (congruent_rows c A B).
Proof. by move=> wB; apply/(wf_rows_matmul _ _ (wf_rows_matmul _ _ wB)). Qed.

(** The congruence action denotes B A B^T. *)
Lemma to_mx_congruent c A B :
  wf_rows c c A -> wf_rows c c B ->
  to_mx c c (congruent_rows c A B) =
  to_mx c c B *m to_mx c c A *m (to_mx c c B)^T.
Proof.
move=> wA wB; rewrite /congruent_rows.
rewrite (to_mx_matmul (wf_rows_matmul _ _ wB) (wf_rows_transpose wB)).
by rewrite (to_mx_matmul wB wA) to_mx_transpose.
Qed.

(** The congruence action keeps a symmetric matrix symmetric. *)
Lemma congruent_rows_symmetric c A B :
  wf_rows c c A -> wf_rows c c B -> transpose_rows c A = A ->
  transpose_rows c (congruent_rows c A B) = congruent_rows c A B.
Proof.
move=> wA wB symA; have wP := wf_congruent_rows A wB.
apply: (@to_mx_inj _ c c) => //; first exact: wf_rows_transpose.
rewrite to_mx_transpose // to_mx_congruent // !trmx_mul trmxK mulmxA.
by rewrite -(to_mx_transpose wA) symA.
Qed.

Lemma eq_in_map2 (T U V : Type) (P : pred T) (Q : pred U) (f g : T -> U -> V)
    (s : seq T) (t : seq U) :
  (forall x y, P x -> Q y -> f x y = g x y) ->
  all P s -> all Q t -> map2 f s t = map2 g s t.
Proof.
move=> fg; rewrite /map2.
elim: s t => [|x s IH] [|y t] //= /andP [Px Ps] /andP [Qy Qt].
by rewrite fg // IH.
Qed.

Lemma all_map2_l (T U V : Type) (P : pred T) (Q : pred V) (f : T -> U -> V)
    (s : seq T) (t : seq U) :
  (forall x y, P x -> Q (f x y)) -> all P s -> all Q (map2 f s t).
Proof.
move=> PQ; rewrite /map2.
by elim: s t => [|x s IH] [|y t] //= /andP [/PQ -> /IH ->].
Qed.

Lemma map_fixed (T : eqType) (f : T -> T) (s : seq T) :
  [seq f x | x <- s] = s -> all (fun x => f x == x) s.
Proof. by elim: s => [|x s IH] //= [-> /IH ->]; rewrite eqxx. Qed.

(** C8: the congruence action of [mat_2] on [mat_1] is the product
    mat_2 mat_1 transpose(mat_2), and it is symmetric whenever [mat_1] is. *)
Theorem congruent_preserves_symmetry X Y :
  wf X -> wf Y -> is_square X -> shape X = shape Y ->
  exists T P : ndarray F,
    [/\ transpose Y = Ok T, congruent X Y = Ok P,
        (YX <- matmul Y X ;; matmul YX T) = Ok P &
        transpose X = Ok X ->
        transpose P = Ok P /\
        is_symmetric P (TOLERANCE F) = Ok (all_true_like P)].
Proof.
case: X => [r c A|k r c s]; case: Y => [r' c' B|k' r' c' t] wX wY sq Esh;
  try by case: Esh.
  move/eqP: sq => Erc; case: Esh => Er Ec; subst r' c' r.
  exists (Array2 c c (transpose_rows c B)),
         (Array2 c c (congruent_rows c A B)).
  rewrite congruent_Array2 transpose_Array2 matmul_Array2 bind_Ok.
  rewrite matmul_Array2; split=> //.
  rewrite transpose_Array2 => -[symA].
  rewrite /is_symmetric transpose_Array2 /= congruent_rows_symmetric //.
  split=> //; rewrite (@equal_refl _ (Array2 c c _)) ?TOLERANCE_ge0 //=.
  exact: wf_congruent_rows.
move/eqP: sq => Erc; case: Esh => Ek Er Ec; subst k' r' c' r.
case/andP: wX => /eqP sk ws; case/andP: wY => /eqP tk wt.
exists (Array3 k c c [seq transpose_rows c B | B <- t]),
       (Array3 k c c (map2 (fun B A => congruent_rows c A B) t s)).
rewrite congruent_Array3 ?sk ?tk // transpose_Array3 matmul_Array3 bind_Ok.
rewrite matmul_Array3 map2_map2_map ?sk ?tk //; split=> //.
rewrite transpose_Array3 => -[/map_fixed syms].
have EP : [seq transpose_rows c A
          | A <- map2 (fun B A => congruent_rows c A B) t s] =
          map2 (fun B A => congruent_rows c A B) t s.
  rewrite map_map2.
  apply: (@eq_in_map2 _ _ _ (wf_rows c c)
            (fun A => wf_rows c c A && (transpose_rows c A == A))) => //.
    by move=> B A wB /andP [wA /eqP symA]; apply: congruent_rows_symmetric.
  by rewrite all_predI ws.
rewrite /is_symmetric transpose_Array3 /= EP; split=> //.
rewrite (@equal_refl _ (Array3 k c c _)) ?TOLERANCE_ge0 //=.
rewrite size_map2 sk tk minnn eqxx /=.
by apply: all_map2_l wt => B A; apply: wf_congruent_rows.
Qed.

End Products.

(** ** The Frobenius inner product *)

Section InnerProduct.

Variable F : realFieldType.

Local Open Scope ring_scope.

Implicit Types (A B : seq (seq F)) (r c : nat).

Lemma sum_rowsE r c A :
  wf_rows r c A -> sum_rows A = \sum_(i < r) \sum_(j < c) entry A i j.
Proof.
move=> wA; rewrite /sum_rows sumrE big_map (big_nth [::]).
rewrite (wf_rows_size wA) big_mkord; apply: eq_bigr => i _.
by rewrite sumrE (big_nth 0) (wf_rows_nth wA) // big_mkord.
Qed.

Lemma einsum_Array2 r c A B :
  einsum_ij_ij (Array2 r c A) (Array2 r c B) =
  Ok (Scalar (sum_rows (map2 (map2 (fun x y => x * y)) A B))).
Proof. by rewrite /einsum_ij_ij broadcast2_Array2. Qed.

Lemma mul_rows_comm A B :
  map2 (map2 (fun x y : F => x * y)) A B =
  map2 (map2 (fun x y : F => x * y)) B A.
Proof.
rewrite [RHS]map2_swap; apply: eq_map2 => u v.
by rewrite [RHS]map2_swap; apply: eq_map2 => x y; rewrite mulrC.
Qed.

Lemma wf_const_rows r c (x : F) : wf_rows r c (const_rows r c x).
Proof.
by rewrite /wf_rows /const_rows size_nseq eqxx all_nseq /= size_nseq eqxx orbT.
Qed.

Lemma entry_const_rows r c (x : F) (i : 'I_r) (j : 'I_c) :
  entry (const_rows r c x) i j = x.
Proof. by rewrite /entry /const_rows nth_nseq ltn_ord nth_nseq ltn_ord. Qed.

(** C5: the inner product of two (m, n) tangent vectors is the sum of the
    products of their entries; it is symmetric, and the inner product of a
    vector with itself is nonnegative and vanishes only for the zero
    matrix. *)
Theorem inner_product_frobenius (self : MatricesMetric) r c A B
    (base_point : option (ndarray F)) :
  wf_rows r c A -> wf_rows r c B ->
  [/\ inner_product self (Array2 r c A) (Array2 r c B) base_point =
      Ok (Scalar (\sum_(i < r) \sum_(j < c) entry A i j * entry B i j)),
      inner_product self (Array2 r c A) (Array2 r c B) base_point =
      inner_product self (Array2 r c B) (Array2 r c A) base_point
    & exists v : F,
        [/\ inner_product self (Array2 r c A) (Array2 r c A) base_point =
            Ok (Scalar v), 0 <= v & v = 0 <-> A = const_rows r c 0]].
Proof.
move=> wA wB; rewrite /inner_product !einsum_Array2.
have Esum (M N : seq (seq F)) : wf_rows r c M -> wf_rows r c N ->
    sum_rows (map2 (map2 (fun x y => x * y)) M N) =
    \sum_(i < r) \sum_(j < c) entry M i j * entry N i j.
  move=> wM wN; rewrite (sum_rowsE (wf_rows_map2 _ wM wN)).
  apply: eq_bigr => i _; apply: eq_bigr => j _.
  by rewrite (entry_map2 _ wM wN).
split; first by rewrite Esum.
  by rewrite mul_rows_comm.
exists (\sum_(i < r) \sum_(j < c) entry A i j * entry A i j).
have sq_ge0 (i : 'I_r) (j : 'I_c) : 0 <= entry A i j * entry A i j.
  by rewrite -expr2 sqr_ge0.
have row_ge0 (i : 'I_r) : 0 <= \sum_(j < c) entry A i j * entry A i j.
  by apply: sumr_ge0 => j _.
split; first by rewrite Esum.
  by apply: sumr_ge0 => i _.
split=> [v0|->]; last first.
  rewrite big1 // => i _; rewrite big1 // => j _.
  by rewrite entry_const_rows mulr0.
apply: (@to_mx_inj _ r c) => //; first exact: wf_const_rows.
apply/matrixP => i j; rewrite !mxE entry_const_rows.
have /(_ i isT) := psumr_eq0P (fun i _ => row_ge0 i) v0.
move/(psumr_eq0P (fun j _ => sq_ge0 i j))/(_ j isT)/eqP.
by rewrite -expr2 sqrf_eq0 => /eqP.
Qed.

End InnerProduct.

(** ** Uniform sampling *)

Section Sampling.

Variable F : realFieldType.
Variable rng : Type.
Variable random_sample : rng -> F * rng.

Local Open Scope ring_scope.

Lemma size_draws (A : Type) (draw : rng -> A * rng) (count : nat) (g : rng) :
  size (draws draw count g).1 = count.
Proof.
elim: count g => [|count IH] g //=.
case: (draw g) => x g1; case E: (draws draw count g1) => [xs g2] /=.
by move: (IH g1); rewrite E /= => ->.
Qed.

Lemma all_draws (A : Type) (P : pred A) (draw : rng -> A * rng) (count : nat)
    (g : rng) :
  (forall g', P (draw g').1) -> all P (draws draw count g).1.
Proof.
move=> Pdraw; elim: count g => [|count IH] g //=.
case E1: (draw g) => [x g1]; case E: (draws draw count g1) => [xs g2] /=.
by move: (Pdraw g) (IH g1); rewrite E1 E /= => -> ->.
Qed.

(** A sampled matrix has the extents asked for, whatever the source. *)
Lemma wf_draws_rows (r c : nat) (g : rng) :
  wf_rows r c (draws (draws random_sample c) r g).1.
Proof.
rewrite /wf_rows size_draws eqxx /=.
by apply: all_draws => g'; rewrite size_draws.
Qed.

Lemma range_scaled (bound u : F) :
  0 < bound -> in_unit u -> in_range bound (bound * (u - 1 / 2%:R)).
Proof.
move=> Hb /andP [u0 u1]; rewrite /in_range mulrBr mulrA mulr1.
rewrite -{1}[- _]add0r lerD2r mulr_ge0 ?(ltW Hb) //=.
rewrite ltrBlDr -mulrDl -mulr2n -mulr_natr mulfK ?pnatr_eq0 //.
by rewrite -{2}[bound]mulr1 ltr_pM2l.
Qed.

Lemma Matrices_init_extents (vm vn : pyval) (self : Matrices) :
  Matrices_init vm vn = Ok self -> nonneg (m self) && nonneg (n self).
Proof.
case/Matrices_init_Ok => _ _ Hm Hn _.
by apply/andP; split; apply/Z.leb_le; lia.
Qed.

(** What [random_uniform] returns for a sample count that is not negative. *)
Lemma random_uniform_Ok (self : Matrices) (n_samples : Z) (bound : F) (g : rng) :
  nonneg (m self) && nonneg (n self) -> nonneg n_samples ->
  let r := Z.to_nat (m self) in
  let c := Z.to_nat (n self) in
  let f := fun u => bound * (u - 1 / 2%:R) in
  (random_uniform random_sample self n_samples bound g).1 =
  Ok (if Z.eqb n_samples 1 then
        Array2 r c [seq [seq f u | u <- row]
                   | row <- (draws (draws random_sample c) r g).1]
      else
        Array3 (Z.to_nat n_samples) r c
          [seq [seq [seq f u | u <- row] | row <- x]
          | x <- (draws (draws (draws random_sample c) r)
                    (Z.to_nat n_samples) g).1]).
Proof.
move=> /andP [Hm Hn] Hs /=; rewrite /random_uniform /rand.
case: (Z.eqb n_samples 1) => /=; rewrite Hm Hn ?Hs /=.
  case: (draws (draws random_sample _) _ g) => rows g' /=.
  congr (Ok (Array2 _ _ _)); rewrite -map_comp; apply: eq_map => row /=.
  by rewrite -map_comp.
case: (draws (draws (draws random_sample _) _) _ g) => mats g' /=.
congr (Ok (Array3 _ _ _ _)); rewrite -map_comp; apply: eq_map => x /=.
by rewrite -map_comp; apply: eq_map => row /=; rewrite -map_comp.
Qed.

Lemma random_uniform_Err (self : Matrices) (n_samples : Z) (bound : F) (g : rng) :
  ~~ nonneg n_samples ->
  (random_uniform random_sample self n_samples bound g).1 = Err ValueError.
Proof.
move=> Hs; rewrite /random_uniform /rand.
have -> /= : Z.eqb n_samples 1 = false.
  by apply/Z.eqb_neq => E; move: Hs; rewrite E.
by rewrite (negbTE Hs).
Qed.

Section SamplingRange.

Hypothesis random_sample_unit : forall g, in_unit (random_sample g).1.

Lemma draws_rows_unit (r c : nat) (g : rng) :
  all (all in_unit) (draws (draws random_sample c) r g).1.
Proof. by apply: all_draws => g'; apply: all_draws. Qed.

Lemma scaled_rows_range (bound : F) (rows : seq (seq F)) :
  0 < bound -> all (all in_unit) rows ->
  all (all (in_range bound))
    [seq [seq bound * (u - 1 / 2%:R) | u <- row] | row <- rows].
Proof.
move=> Hb Hrows; rewrite all_map; apply: sub_all Hrows => row /= Hrow.
by rewrite all_map; apply: sub_all Hrow => u; apply: range_scaled.
Qed.

(** Every sampled entry lies in [-bound/2, bound/2), and the sampled array
    is well formed. *)
Lemma random_uniform_range (self : Matrices) (n_samples : Z) (bound : F)
    (g : rng) (X : ndarray F) :
  nonneg (m self) && nonneg (n self) -> 0 < bound ->
  (random_uniform random_sample self n_samples bound g).1 = Ok X ->
  wf X /\ all_entries (in_range bound) X.
Proof.
move=> Hmn Hb; case Hs: (nonneg n_samples); last first.
  by rewrite random_uniform_Err ?Hs.
rewrite random_uniform_Ok //; case: (Z.eqb n_samples 1) => -[<-] /=.
  split; first exact/wf_rows_map/wf_draws_rows.
  exact/scaled_rows_range/draws_rows_unit.
rewrite size_map size_draws eqxx /= !all_map; split.
  by apply: all_draws => g' /=; apply/wf_rows_map/wf_draws_rows.
by apply: all_draws => g' /=; apply/scaled_rows_range/draws_rows_unit.
Qed.

(** C6: on a space constructed from positive integers and for a positive
    bound, one sample has shape (m, n), five samples have shape (5, m, n),
    and every entry lies in [-bound/2, bound/2). *)
Theorem random_uniform_shape_and_range (vm vn : pyval) (self : Matrices)
    (bound : F) (g : rng) :
  Matrices_init vm vn = Ok self -> 0 < bound ->
  [/\ exists X : ndarray F,
        (random_uniform random_sample self 1 bound g).1 = Ok X /\
        shape X = [:: Z.to_nat (m self); Z.to_nat (n self)],
      exists X : ndarray F,
        (random_uniform random_sample self 5 bound g).1 = Ok X /\
        shape X = [:: 5%N; Z.to_nat (m self); Z.to_nat (n self)]
    & forall (n_samples : Z) (X : ndarray F),
        (random_uniform random_sample self n_samples bound g).1 = Ok X ->
        wf X /\ all_entries (in_range bound) X].
Proof.
move=> /Matrices_init_extents Hmn Hb; split.
- by rewrite random_uniform_Ok //=; eexists; split; first by reflexivity.
- by rewrite random_uniform_Ok //=; eexists; split; first by reflexivity.
- by move=> n_samples X; apply: random_uniform_range.
Qed.

End SamplingRange.

(** C10: no sample at all gives the empty batch of shape (0, m, n); the
    result is a single matrix exactly when [n_samples] is 1. *)
Theorem random_uniform_squeeze_only_one (vm vn : pyval) (self : Matrices)
    (bound : F) (g : rng) :
  Matrices_init vm vn = Ok self ->
  (random_uniform random_sample self 0 bound g).1 =
    Ok (Array3 0 (Z.to_nat (m self)) (Z.to_nat (n self)) [::]) /\
  forall (n_samples : Z) (X : ndarray F),
    (random_uniform random_sample self n_samples bound g).1 = Ok X ->
    (ndim X == 2) = Z.eqb n_samples 1 /\
    shape X =
      if Z.eqb n_samples 1 then [:: Z.to_nat (m self); Z.to_nat (n self)]
      else [:: Z.to_nat n_samples; Z.to_nat (m self); Z.to_nat (n self)].
Proof.
move=> /Matrices_init_extents Hmn; split; first by rewrite random_uniform_Ok.
move=> n_samples X; case Hs: (nonneg n_samples); last first.
  by rewrite random_uniform_Err ?Hs.
by rewrite random_uniform_Ok //; case: (Z.eqb n_samples 1) => -[<-].
Qed.

End Sampling.


(** ** A worked scenario: the identity and a rotation generator *)

Section ScenarioTolerance.

Variable F : realFieldType.

Local Open Scope ring_scope.

Let rot : ndarray F := Array2 2 2 [:: [:: 0; 1]; [:: - 1; 0]].

Lemma not_close_opposite_units :
  (`|1 - (- 1)| <= TOLERANCE F + rtol F * `|- 1 : F|) = false.
Proof.
have lt1 : 10%:R ^- 5 < 1 :> F.
  by rewrite invf_lt1 ?exprn_gt0 ?ltr0n // exprn_egt1 ?ltr1n.
have ge2 : `|1 - (- 1)| = 1 + 1 :> F.
  by rewrite opprK ger0_norm // addr_ge0 // ler01.
rewrite ge2 normrN normr1 mulr1; apply/negbTE; rewrite -ltNge.
exact: ltrD.
Qed.

Lemma is_skew_symmetric_rot :
  is_skew_symmetric rot (TOLERANCE F) = Ok (Scalar true).
Proof.
have -> : is_skew_symmetric rot (TOLERANCE F) = equal rot rot (TOLERANCE F).
  by rewrite /is_skew_symmetric /rot transpose_Array2 bind_Ok /= oppr0 opprK.
exact: (@equal_refl F rot (TOLERANCE F) isT (TOLERANCE_ge0 F)).
Qed.

Lemma is_symmetric_rot :
  is_symmetric rot (TOLERANCE F) = Ok (Scalar false).
Proof.
rewrite /is_symmetric /rot transpose_Array2 bind_Ok.
rewrite /equal /isclose broadcast2_Array2 /= /all_rows /=.
by rewrite not_close_opposite_units andbF.
Qed.

End ScenarioTolerance.

Section Scenario.

Local Open Scope ring_scope.

Example bracket_identity : bracket mat_id mat_b = Ok (zeros_like mat_id).
Proof. by vm_compute. Qed.

Example inner_product_identity :
  inner_product (metric space_2_3) mat_id mat_id None = Ok (Scalar 2%:R).
Proof. by vm_compute. Qed.

Example transpose_mat_a :
  transpose mat_a = Ok (Array2 2 2 [:: [:: 1; 3%:R]; [:: 2%:R; 4%:R]]).
Proof. by []. Qed.

Example is_skew_symmetric_mat_b :
  is_skew_symmetric mat_b (TOLERANCE rat) = Ok (Scalar true).
Proof. exact: (is_skew_symmetric_rot rat). Qed.

Example is_symmetric_mat_b :
  is_symmetric mat_b (TOLERANCE rat) = Ok (Scalar false).
Proof. exact: (is_symmetric_rot rat). Qed.

End Scenario.

(** ** The claims at concrete inputs *)

Section Witnesses.

Local Open Scope ring_scope.

Lemma lcg_sample_unit (g : nat) : in_unit (lcg_sample g).1.
Proof.
rewrite /in_unit /lcg_sample /= divr_ge0 ?ler0n //=.
by rewrite ltr_pdivrMr ?ltr0n // mul1r ltr_nat ltn_pmod.
Qed.

Lemma to_symmetric_add_to_skew_symmetric_witness :
  exists S K : ndarray rat,
    [/\ to_symmetric batch_ab = Ok S, to_skew_symmetric batch_ab = Ok K &
        add S K = Ok batch_ab].
Proof. exact: (@to_symmetric_add_to_skew_symmetric rat batch_ab isT isT). Defined.

Lemma to_symmetric_is_symmetric_witness :
  exists S K T : ndarray rat,
    [/\ to_symmetric mat_a = Ok S, transpose S = Ok S &
        is_symmetric S (TOLERANCE rat) = Ok (all_true_like mat_a)] /\
    [/\ to_skew_symmetric mat_a = Ok K, transpose K = Ok T, K = neg T &
        is_skew_symmetric K (TOLERANCE rat) = Ok (all_true_like mat_a)].
Proof. exact: (@to_symmetric_is_symmetric rat mat_a isT isT). Defined.

Lemma bracket_antisymmetric_witness :
  exists P Q : ndarray rat,
    [/\ bracket mat_a mat_b = Ok P, bracket mat_b mat_a = Ok Q, P = neg Q &
        bracket mat_a mat_a = Ok (zeros_like mat_a)].
Proof.
exact: (@bracket_antisymmetric rat mat_a mat_b isT isT isT (erefl _)).
Defined.

Lemma inner_product_frobenius_witness :
  [/\ inner_product (metric space_2_3) (Array2 2 2 rows_a) (Array2 2 2 rows_b)
        None =
      Ok (Scalar (\sum_(i < 2) \sum_(j < 2) entry rows_a i j * entry rows_b i j)),
      inner_product (metric space_2_3) (Array2 2 2 rows_a) (Array2 2 2 rows_b)
        None =
      inner_product (metric space_2_3) (Array2 2 2 rows_b) (Array2 2 2 rows_a)
        None
    & exists v : rat,
        [/\ inner_product (metric space_2_3) (Array2 2 2 rows_a)
              (Array2 2 2 rows_a) None = Ok (Scalar v),
            0 <= v & v = 0 <-> rows_a = const_rows 2 2 0]].
Proof.
exact: (@inner_product_frobenius rat (metric space_2_3) 2 2 rows_a rows_b
          None isT isT).
Defined.

Lemma random_uniform_shape_and_range_witness :
  [/\ exists X : ndarray rat,
        (random_uniform lcg_sample space_2_3 1 1 0%N).1 = Ok X /\
        shape X = [:: Z.to_nat (m space_2_3); Z.to_nat (n space_2_3)],
      exists X : ndarray rat,
        (random_uniform lcg_sample space_2_3 5 1 0%N).1 = Ok X /\
        shape X = [:: 5%N; Z.to_nat (m space_2_3); Z.to_nat (n space_2_3)]
    & forall (n_samples : Z) (X : ndarray rat),
        (random_uniform lcg_sample space_2_3 n_samples 1 0%N).1 = Ok X ->
        wf X /\ all_entries (in_range 1) X].
Proof.
exact: (@random_uniform_shape_and_range rat nat lcg_sample lcg_sample_unit
          (PyInt 2) (PyInt 3) space_2_3 1 0%N (erefl _) ltr01).
Defined.

Lemma mul_left_to_right_witness :
  mul [:: Array2 2 3 rows_2_3; Array2 3 1 rows_3_1] =
  Ok (Array2 2 1 (chain_rows rows_2_3 [:: Array2 3 1 rows_3_1])).
Proof.
case: (@mul_left_to_right rat) => _ _ _ chain.
exact: (chain 2%N 3%N rows_2_3 [:: Array2 3 1 rows_3_1] isT).
Defined.

Lemma congruent_preserves_symmetry_witness :
  exists T P : ndarray rat,
    [/\ transpose mat_b = Ok T, congruent mat_s mat_b = Ok P,
        (YX <- matmul mat_b mat_s ;; matmul YX T) = Ok P, transpose P = Ok P &
        is_symmetric P (TOLERANCE rat) = Ok (all_true_like P)].
Proof.
case: (@congruent_preserves_symmetry rat mat_s mat_b isT isT isT (erefl _)).
move=> T [P [HT HP Hmul Hsym]]; exists T, P.
by case: (Hsym (erefl _)).
Defined.

Lemma random_uniform_squeeze_only_one_witness :
  (random_uniform lcg_sample space_2_3 0 1 0%N).1 =
    Ok (Array3 0 (Z.to_nat (m space_2_3)) (Z.to_nat (n space_2_3)) [::]) /\
  forall (n_samples : Z) (X : ndarray rat),
    (random_uniform lcg_sample space_2_3 n_samples 1 0%N).1 = Ok X ->
    (ndim X == 2) = Z.eqb n_samples 1 /\
    shape X =
      if Z.eqb n_samples 1
      then [:: Z.to_nat (m space_2_3); Z.to_nat (n space_2_3)]
      else [:: Z.to_nat n_samples; Z.to_nat (m space_2_3);
               Z.to_nat (n space_2_3)].
Proof.
exact: (@random_uniform_squeeze_only_one rat nat lcg_sample (PyInt 2) (PyInt 3)
          space_2_3 1 0%N (erefl _)).
Defined.

End Witnesses.

(** * Further properties of the operations *)

(** ** Membership, beyond single matrices *)

Section BelongsExtents.

Variable F : realFieldType.

Lemma belongs_extents (self : Matrices) (X : ndarray F) :
  belongs self X =
  Ok (Z.eqb (Z.of_nat (matrix_extents X).1)
            (Z.land (m self) (Z.of_nat (matrix_extents X).2)) &&
      Z.eqb (Z.land (m self) (Z.of_nat (matrix_extents X).2)) (n self)).
Proof. by case: X. Qed.

(** X1: on a matrix or a batch whose matrix extents are the space's own
    (m, n), [belongs] answers whether m equals n. *)
Theorem belongs_own_extents (vm vn : pyval) (self : Matrices) (X : ndarray F) :
  Matrices_init vm vn = Ok self ->
  matrix_extents X = (Z.to_nat (m self), Z.to_nat (n self)) ->
  belongs self X = Ok (Z.eqb (m self) (n self)).
Proof.
case/Matrices_init_Ok => _ _ Hm Hn _ EX.
rewrite belongs_extents EX /= !Z2Nat.id; try lia.
congr Ok; case E: (Z.eqb (m self) (n self)).
  by move/Z.eqb_eq: E => <-; rewrite Z.land_diag Z.eqb_refl.
apply/negbTE/negP => /andP [/Z.eqb_eq E1 /Z.eqb_eq E2].
by move/Z.eqb_neq: E; apply; rewrite [LHS]E1.
Qed.

(** X2: a point that [belongs] accepts has exactly n rows (not m), and n is
    at most m and at most the number of columns of the point. *)
Theorem belongs_accepted_extents (vm vn : pyval) (self : Matrices)
    (X : ndarray F) :
  Matrices_init vm vn = Ok self -> belongs self X = Ok true ->
  [/\ Z.of_nat (matrix_extents X).1 = n self, Z.le (n self) (m self) &
      Z.le (n self) (Z.of_nat (matrix_extents X).2)].
Proof.
case/Matrices_init_Ok => _ _ Hm Hn _; rewrite belongs_extents.
case=> /andP [/Z.eqb_eq E1 /Z.eqb_eq E2].
have Hc : Z.le 0 (Z.of_nat (matrix_extents X).2) by lia.
have Hl := @land_le_l (m self) _ (Z.lt_le_incl _ _ Hm) Hc.
have Hr := @land_le_l _ (m self) Hc (Z.lt_le_incl _ _ Hm).
rewrite Z.land_comm in Hr.
by split; lia.
Qed.

End BelongsExtents.

Lemma belongs_own_extents_witness :
  belongs space_2_3 batch_23 = Ok (Z.eqb (m space_2_3) (n space_2_3)).
Proof.
exact: (@belongs_own_extents rat (PyInt 2) (PyInt 3) space_2_3 batch_23
          (erefl _) (erefl _)).
Defined.

Lemma belongs_accepted_extents_witness :
  [/\ Z.of_nat (matrix_extents (Array2 1 5 rows_1_5)).1 = n space_3_1,
      Z.le (n space_3_1) (m space_3_1) &
      Z.le (n space_3_1) (Z.of_nat (matrix_extents (Array2 1 5 rows_1_5)).2)].
Proof.
exact: (@belongs_accepted_extents rat (PyInt 3) (PyInt 1) space_3_1
          (Array2 1 5 rows_1_5) (erefl _) (erefl _)).
Defined.

(** ** Approximate equality *)

Section EqualMore.

Variable F : realFieldType.

Local Open Scope ring_scope.

Implicit Types (A B : seq (seq F)) (X Y : ndarray F) (k r c : nat).

(** X3: [equal] fails exactly when the elementwise comparison fails: the
    axes it reduces always fit the rank of the comparison.  Its answer is a
    single boolean exactly when both operands are single matrices. *)
Theorem equal_fails_only_with_isclose X Y (atol : F) :
  match isclose X Y atol with
  | Ok _ =>
      exists res : reduced bool,
        equal X Y atol = Ok res /\
        is_scalar res = (ndim X == 2%N) && (ndim Y == 2%N)
  | Err e => equal X Y atol = Err e
  end.
Proof.
rewrite /equal /isclose /broadcast2.
case: X => [r c A|k r c s]; case: Y => [r' c' B|k' r' c' t] /=;
  do 3?[case: (bdim _ _) => [?|] //=]; by eexists.
Qed.

Lemma flatten_nseq1 (T : Type) (k : nat) (x : T) :
  flatten (nseq k [:: x]) = nseq k x.
Proof. by elim: k => [|k IH] //=; rewrite IH. Qed.

Lemma stretch1 (T : Type) (k : nat) (x : T) : stretch 1 k [:: x] = nseq k x.
Proof.
rewrite /stretch; case: eqP => [<-|_] //.
exact: flatten_nseq1.
Qed.

Lemma map2_nseq (T U V : Type) (f : T -> U -> V) (s : seq T) (y : U) :
  map2 f s (nseq (size s) y) = [seq f x y | x <- s].
Proof. by rewrite /map2; elim: s => [|x s IH] //=; rewrite IH. Qed.

Lemma bdim_1r k : bdim k 1 = Some k.
Proof. by rewrite /bdim; case: eqP => [->|_] //; case: eqP => [->|]. Qed.

(** An elementwise operation on a batch and one matrix of the same matrix
    extents pairs the matrix with every element of the batch. *)
Lemma broadcast2_Array3_Array2 (T U : Type) (f : T -> T -> U) k r c
    (s : seq (seq (seq T))) (B : seq (seq T)) :
  size s = k ->
  broadcast2 f (Array3 k r c s) (Array2 r c B) =
  Ok (Array3 k r c [seq map2 (map2 f) M B | M <- s]).
Proof.
move=> sk; rewrite /broadcast2 /= bdim_1r !bdim_id /from_batch /=.
rewrite stretch_batch_id /stretch_batch /= stretch_mat_id stretch1.
by rewrite -sk map2_nseq.
Qed.

(** X4: comparing a batch with one matrix gives one boolean per batch
    element, the comparison of that element with the matrix. *)
Theorem equal_batch_against_single k r c (s : seq (seq (seq F))) B (atol : F) :
  size s = k ->
  equal (Array3 k r c s) (Array2 r c B) atol =
  Ok (Vector [seq all_rows
                    (map2 (map2 (fun x y => `|x - y| <= atol + rtol F * `|y|))
                       M B)
             | M <- s]).
Proof.
move=> sk; rewrite /equal /isclose broadcast2_Array3_Array2 //=.
by rewrite -map_comp.
Qed.

End EqualMore.

Lemma equal_batch_against_single_witness :
  equal batch_ab mat_a (1 : rat) =
  Ok (Vector [seq all_rows
                    (map2 (map2 (fun x y : rat =>
                                   `|x - y| <= 1 + rtol rat * `|y|)%R)
                       M rows_a)
             | M <- [:: rows_a; rows_b]]).
Proof.
exact: (@equal_batch_against_single rat 2 2 2 [:: rows_a; rows_b] rows_a 1%R
          (erefl _)).
Defined.

(** ** Transposition and the chained product *)

Section TransposeMul.

Variable F : realFieldType.

Local Open Scope ring_scope.

Implicit Types (A B C : seq (seq F)) (X Y : ndarray F) (k r c p q : nat).

Lemma transpose_rowsK r c A :
  wf_rows r c A -> transpose_rows r (transpose_rows c A) = A.
Proof.
move=> wA; have wT := wf_rows_transpose wA.
apply: (@to_mx_inj _ r c) => //; first exact: wf_rows_transpose.
by rewrite !to_mx_transpose // trmxK.
Qed.

(** X5: [transpose] never fails; it exchanges the two matrix extents, keeps
    the batch extent and the well-formedness, and undoes itself. *)
Theorem transpose_involutive X :
  wf X ->
  exists T : ndarray F,
    [/\ transpose X = Ok T,
        matrix_extents T = ((matrix_extents X).2, (matrix_extents X).1),
        ndim T = ndim X, wf T & transpose T = Ok X].
Proof.
case: X => [r c A|k r c s] wX.
  exists (Array2 c r (transpose_rows c A)); split=> //.
    exact: wf_rows_transpose.
  by rewrite transpose_Array2 transpose_rowsK.
case/andP: wX => sk ws.
exists (Array3 k c r [seq transpose_rows c A | A <- s]); split=> //.
  rewrite /= size_map sk /= all_map; apply: sub_all ws => A.
  exact: wf_rows_transpose.
rewrite transpose_Array3 -map_comp; congr (Ok (Array3 _ _ _ _)).
by apply: (map_id_in_wf _ ws) => A /= /transpose_rowsK.
Qed.

Lemma transpose_matmul_rows r c p A B :
  wf_rows r c A -> wf_rows c p B ->
  transpose_rows p (matmul_rows p A B) =
  matmul_rows r (transpose_rows p B) (transpose_rows c A).
Proof.
move=> wA wB; have wTA := wf_rows_transpose wA; have wTB := wf_rows_transpose wB.
have wP := wf_rows_matmul p B wA.
apply: (@to_mx_inj _ p r); first exact: wf_rows_transpose.
  exact: (wf_rows_matmul _ _ wTB).
rewrite to_mx_transpose // (to_mx_matmul wA wB) (to_mx_matmul wTB wTA).
by rewrite !to_mx_transpose // trmx_mul.
Qed.

(** X6: the transpose of a product of two matrices is the product of the
    transposes in reverse order. *)
Theorem transpose_mul r c p A B :
  wf_rows r c A -> wf_rows c p B ->
  exists P : ndarray F,
    (AB <- mul [:: Array2 r c A; Array2 c p B] ;; transpose AB) = Ok P /\
    (TB <- transpose (Array2 c p B) ;; TA <- transpose (Array2 r c A) ;;
     mul [:: TB; TA]) = Ok P.
Proof.
move=> wA wB; exists (Array2 p r (transpose_rows p (matmul_rows p A B))).
rewrite mul2 matmul_Array2 ?bind_Ok !transpose_Array2 ?bind_Ok mul2.
by rewrite matmul_Array2 (transpose_matmul_rows wA wB).
Qed.

Lemma matmul_rowsA r c p q A B C :
  wf_rows r c A -> wf_rows c p B -> wf_rows p q C ->
  matmul_rows q (matmul_rows p A B) C = matmul_rows q A (matmul_rows q B C).
Proof.
move=> wA wB wC.
have wAB := wf_rows_matmul p B wA; have wBC := wf_rows_matmul q C wB.
apply: (@to_mx_inj _ r q); first exact: (wf_rows_matmul _ _ wAB).
  exact: (wf_rows_matmul _ _ wA).
rewrite (to_mx_matmul wAB wC) (to_mx_matmul wA wB) (to_mx_matmul wA wBC).
by rewrite (to_mx_matmul wB wC) mulmxA.
Qed.

(** X7: the product of three matrices with fitting extents does not depend
    on how it is bracketed: [mul(A, B, C)], [mul(mul(A, B), C)] and
    [mul(A, mul(B, C))] agree. *)
Theorem mul_associative r c p q A B C :
  wf_rows r c A -> wf_rows c p B -> wf_rows p q C ->
  exists P : ndarray F,
    [/\ mul [:: Array2 r c A; Array2 c p B; Array2 p q C] = Ok P,
        (AB <- mul [:: Array2 r c A; Array2 c p B] ;;
         mul [:: AB; Array2 p q C]) = Ok P &
        (BC <- mul [:: Array2 c p B; Array2 p q C] ;;
         mul [:: Array2 r c A; BC]) = Ok P].
Proof.
move=> wA wB wC; exists (Array2 r q (matmul_rows q (matmul_rows p A B) C)).
rewrite mul3 !mul2 !matmul_Array2 ?bind_Ok ?mul2 ?matmul_Array2.
by rewrite (matmul_rowsA wA wB wC).
Qed.

Lemma foldl_Err (T : Type) (f : T -> T -> result T) (e : exn) (s : seq T) :
  foldl (fun acc x => v <- acc ;; f v x) (Err e) s = Err e.
Proof. by elim: s. Qed.

(** X8: once a product in the chain fails, [mul] fails with that error
    whatever operands follow. *)
Theorem mul_error_propagates X (s t : seq (ndarray F)) (e : exn) :
  mul (X :: s) = Err e -> mul (X :: s ++ t) = Err e.
Proof. by rewrite /mul /reduce foldl_cat => ->; apply: foldl_Err. Qed.

(** X9: two operands whose inner extents differ make [mul] fail with a
    value error, whatever operands follow. *)
Theorem mul_inner_extents_differ X Y (rest : seq (ndarray F)) :
  (matrix_extents X).2 != (matrix_extents Y).1 ->
  mul [:: X, Y & rest] = Err ValueError.
Proof.
move=> Hne; rewrite mul_cons2.
have -> : matmul X Y = Err ValueError.
  by rewrite /matmul; case: X Y Hne => [? ? ?|? ? ? ?] [? ? ?|? ? ? ?] /= ->.
exact: foldl_Err.
Qed.

(** X10: a batch times one matrix multiplies every element of the batch by
    that matrix. *)
Theorem mul_batch_by_single k r c p (s : seq (seq (seq F))) B :
  size s = k ->
  mul [:: Array3 k r c s; Array2 c p B] =
  Ok (Array3 k r p [seq matmul_rows p M B | M <- s]).
Proof.
move=> sk; rewrite mul2 /matmul /= eqxx /= bdim_1r /from_batch /=.
by rewrite stretch_id stretch1 -sk map2_nseq.
Qed.

End TransposeMul.

Lemma transpose_involutive_witness :
  exists T : ndarray rat,
    [/\ transpose batch_23 = Ok T,
        matrix_extents T =
        ((matrix_extents batch_23).2, (matrix_extents batch_23).1),
        ndim T = ndim batch_23, wf T & transpose T = Ok batch_23].
Proof. exact: (@transpose_involutive rat batch_23 isT). Defined.

Lemma transpose_mul_witness :
  exists P : ndarray rat,
    (AB <- mul [:: mat_2_3; mat_3_1] ;; transpose AB) = Ok P /\
    (TB <- transpose mat_3_1 ;; TA <- transpose mat_2_3 ;;
     mul [:: TB; TA]) = Ok P.
Proof. exact: (@transpose_mul rat 2 3 1 rows_2_3 rows_3_1 isT isT). Defined.

Lemma mul_associative_witness :
  exists P : ndarray rat,
    [/\ mul [:: mat_2_3; mat_3_1; mat_1_2] = Ok P,
        (AB <- mul [:: mat_2_3; mat_3_1] ;; mul [:: AB; mat_1_2]) = Ok P &
        (BC <- mul [:: mat_3_1; mat_1_2] ;; mul [:: mat_2_3; BC]) = Ok P].
Proof.
exact: (@mul_associative rat 2 3 1 2 rows_2_3 rows_3_1 rows_1_2 isT isT isT).
Defined.

Lemma mul_error_propagates_witness :
  mul (mat_2_3 :: [:: mat_2_3] ++ [:: mat_3_1]) = Err ValueError.
Proof.
exact: (@mul_error_propagates rat mat_2_3 [:: mat_2_3] [:: mat_3_1] ValueError
          (erefl _)).
Defined.

Lemma mul_inner_extents_differ_witness :
  mul [:: mat_2_3; mat_1_2; mat_3_1] = Err ValueError.
Proof.
exact: (@mul_inner_extents_differ rat mat_2_3 mat_1_2 [:: mat_3_1] isT).
Defined.

Lemma mul_batch_by_single_witness :
  mul [:: batch_23; mat_3_1] =
  Ok (Array3 2 2 1 [seq matmul_rows 1 M rows_3_1 | M <- [:: rows_2_3; rows_2_3]]).
Proof.
exact: (@mul_batch_by_single rat 2 2 3 1 [:: rows_2_3; rows_2_3] rows_3_1
          (erefl _)).
Defined.

(** ** The commutator as a Lie bracket *)

Section BracketMore.

Variable F : realFieldType.

Local Open Scope ring_scope.

Implicit Types (A B C : seq (seq F)) (c : nat).

Lemma bracket_Array2_rows c A B :
  bracket (Array2 c c A) (Array2 c c B) = Ok (Array2 c c (bracket_rows c A B)).
Proof. exact: bracket_Array2. Qed.

Lemma wf_bracket_rows c A B :
  wf_rows c c A -> wf_rows c c B -> wf_rows c c (bracket_rows c A B).
Proof.
move=> wA wB; apply: wf_rows_map2; first exact: (wf_rows_matmul _ _ wA).
exact: (wf_rows_matmul _ _ wB).
Qed.

Lemma to_mx_bracket c A B :
  wf_rows c c A -> wf_rows c c B ->
  to_mx c c (bracket_rows c A B) =
  to_mx c c A *m to_mx c c B - to_mx c c B *m to_mx c c A.
Proof.
move=> wA wB.
have wP := wf_rows_matmul c B wA; have wQ := wf_rows_matmul c A wB.
by rewrite /bracket_rows to_mx_sub // (to_mx_matmul wA wB) (to_mx_matmul wB wA).
Qed.

Lemma to_mx_const0 r c : to_mx r c (const_rows r c (0 : F)) = 0.
Proof. by apply/matrixP => i j; rewrite !mxE entry_const_rows. Qed.

Lemma to_mx_neg_rows r c A :
  wf_rows r c A -> to_mx r c (neg_rows A) = - to_mx r c A.
Proof. exact: to_mx_neg. Qed.

Lemma jacobi_sum (V : zmodType) (p1 p2 p3 p4 p5 p6 : V) :
  (p1 - p2 - (p3 - p4)) + (p3 - p5 - (p6 - p2)) + (p6 - p4 - (p1 - p5)) = 0.
Proof.
rewrite !opprB !addrA subrK subrK.
rewrite [_ - p4 + p5]addrAC [_ + p2 + p5]addrAC subrK.
by rewrite [_ + p4 + p2]addrAC subrK addrK subrr.
Qed.

(** X11: the commutator satisfies the Jacobi identity:
    [A, [B, C]] + [B, [C, A]] + [C, [A, B]] is the zero matrix. *)
Theorem bracket_jacobi c A B C :
  wf_rows c c A -> wf_rows c c B -> wf_rows c c C ->
  (bc <- bracket (Array2 c c B) (Array2 c c C) ;;
   x <- bracket (Array2 c c A) bc ;;
   ca <- bracket (Array2 c c C) (Array2 c c A) ;;
   y <- bracket (Array2 c c B) ca ;;
   ab <- bracket (Array2 c c A) (Array2 c c B) ;;
   z <- bracket (Array2 c c C) ab ;;
   xy <- add x y ;;
   add xy z) = Ok (zeros_like (Array2 c c A)).
Proof.
move=> wA wB wC; rewrite !(bracket_Array2_rows, bind_Ok).
rewrite /add !(broadcast2_Array2, bind_Ok) /=; congr (Ok (Array2 _ _ _)).
have wBC := wf_bracket_rows wB wC; have wCA := wf_bracket_rows wC wA.
have wAB := wf_bracket_rows wA wB.
have wx := wf_bracket_rows wA wBC; have wy := wf_bracket_rows wB wCA.
have wz := wf_bracket_rows wC wAB.
have wxy := wf_rows_map2 (fun x y => x + y) wx wy.
apply: (@to_mx_inj _ c c); [exact: wf_rows_map2 | exact: wf_const_rows |].
rewrite to_mx_const0 (to_mx_add wxy wz) (to_mx_add wx wy).
rewrite (to_mx_bracket wA wBC) (to_mx_bracket wB wCA) (to_mx_bracket wC wAB).
rewrite (to_mx_bracket wB wC) (to_mx_bracket wC wA) (to_mx_bracket wA wB).
rewrite !mulmxBr !mulmxBl !mulmxA.
exact: jacobi_sum.
Qed.

(** X12: the commutator of two square matrices is the zero matrix exactly
    when the two matrices commute under [mul]. *)
Theorem bracket_zero_iff_commute c A B :
  wf_rows c c A -> wf_rows c c B ->
  bracket (Array2 c c A) (Array2 c c B) = Ok (zeros_like (Array2 c c A)) <->
  mul [:: Array2 c c A; Array2 c c B] = mul [:: Array2 c c B; Array2 c c A].
Proof.
move=> wA wB; rewrite bracket_Array2_rows !mul2 !matmul_Array2 /=.
have wP := wf_rows_matmul c B wA; have wQ := wf_rows_matmul c A wB.
split=> [[E]|[E]]; congr (Ok (Array2 _ _ _)).
  apply: (@to_mx_inj _ c c) => //; apply/eqP; rewrite -subr_eq0.
  by rewrite -to_mx_sub // -/(bracket_rows c A B) E to_mx_const0.
apply: (@to_mx_inj _ c c); first exact: wf_bracket_rows.
  exact: wf_const_rows.
by rewrite to_mx_const0 /bracket_rows to_mx_sub // E subrr.
Qed.

(** X13: the commutator of two symmetric matrices, and of two
    skew-symmetric matrices, is skew-symmetric. *)
Theorem bracket_skew_symmetric c A B :
  wf_rows c c A -> wf_rows c c B ->
  (transpose (Array2 c c A) = Ok (Array2 c c A) /\
   transpose (Array2 c c B) = Ok (Array2 c c B)) \/
  (transpose (Array2 c c A) = Ok (neg (Array2 c c A)) /\
   transpose (Array2 c c B) = Ok (neg (Array2 c c B))) ->
  exists P : ndarray F,
    bracket (Array2 c c A) (Array2 c c B) = Ok P /\ transpose P = Ok (neg P).
Proof.
move=> wA wB Hsym; exists (Array2 c c (bracket_rows c A B)).
rewrite bracket_Array2_rows transpose_Array2; split=> //=.
congr (Ok (Array2 _ _ _)); have wP := wf_bracket_rows wA wB.
apply: (@to_mx_inj _ c c); first exact: wf_rows_transpose.
  exact: wf_rows_map.
rewrite to_mx_transpose // to_mx_neg // to_mx_bracket //.
rewrite linearB /= !trmx_mul opprB.
case: Hsym => [] [[EA] [EB]].
  by rewrite -!to_mx_transpose // EA EB.
rewrite -!to_mx_transpose // EA EB !to_mx_neg //.
by rewrite !mulmxN !mulNmx !opprK.
Qed.

End BracketMore.

Lemma bracket_jacobi_witness :
  (bc <- bracket mat_b mat_s ;;
   x <- bracket mat_a bc ;;
   ca <- bracket mat_s mat_a ;;
   y <- bracket mat_b ca ;;
   ab <- bracket mat_a mat_b ;;
   z <- bracket mat_s ab ;;
   xy <- add x y ;;
   add xy z) = Ok (zeros_like mat_a).
Proof. exact: (@bracket_jacobi rat 2 rows_a rows_b rows_s isT isT isT). Defined.

Lemma bracket_zero_iff_commute_witness :
  bracket mat_id mat_b = Ok (zeros_like mat_id) <->
  mul [:: mat_id; mat_b] = mul [:: mat_b; mat_id].
Proof. exact: (@bracket_zero_iff_commute rat 2 rows_id rows_b isT isT). Defined.

Lemma bracket_skew_symmetric_witness :
  exists P : ndarray rat,
    bracket mat_b mat_k = Ok P /\ transpose P = Ok (neg P).
Proof.
apply: (@bracket_skew_symmetric rat 2 rows_b rows_k isT isT).
by right; split; vm_compute.
Defined.

(** ** The tolerance tests, entry by entry *)

Section SymmetryTests.

Variable F : realFieldType.

Local Open Scope ring_scope.

Implicit Types (A B : seq (seq F)) (X : ndarray F) (k r c : nat).

Lemma all_rows_map2P (p : F -> F -> bool) r c A B :
  wf_rows r c A -> wf_rows r c B ->
  all_rows (map2 (map2 p) A B) =
  [forall i : 'I_r, forall j : 'I_c, p (entry A i j) (entry B i j)].
Proof.
move=> wA wB; have sA := wf_rows_size wA; have sB := wf_rows_size wB.
apply/idP/idP => [Hall|/forallP Hall].
  apply/forallP => i; apply/forallP => j.
  have Hi : (i < size (map2 (map2 p) A B))%N by rewrite size_map2 sA sB minnn.
  move/(all_nthP [::])/(_ i Hi): Hall.
  rewrite (@nth_map2 _ _ _ _ [::] [::]) ?sA ?sB // => /(all_nthP true) Hrow.
  have Hj : (j < size (map2 p (nth [::] A i) (nth [::] B i)))%N.
    by rewrite size_map2 (wf_rows_nth wA) // (wf_rows_nth wB) // minnn.
  move: (Hrow j Hj); rewrite (@nth_map2 _ _ _ _ 0 0) //.
    by rewrite (wf_rows_nth wA).
  by rewrite (wf_rows_nth wA) // (wf_rows_nth wB).
apply/(all_nthP [::]) => i; rewrite size_map2 sA sB minnn => Hi.
rewrite (@nth_map2 _ _ _ _ [::] [::]) ?sA ?sB //.
apply/(all_nthP true) => j.
rewrite size_map2 (wf_rows_nth wA) // (wf_rows_nth wB) // minnn => Hj.
rewrite (@nth_map2 _ _ _ _ 0 0) ?(wf_rows_nth wA) ?(wf_rows_nth wB) //.
by move/forallP: (Hall (Ordinal Hi)) => /(_ (Ordinal Hj)).
Qed.

(** X14: [is_symmetric] on a square matrix answers true exactly when every
    entry is within the tolerance of the entry mirrored at the diagonal. *)
Theorem is_symmetric_entrywise c A (atol : F) :
  wf_rows c c A ->
  is_symmetric (Array2 c c A) atol =
  Ok (Scalar [forall i : 'I_c, forall j : 'I_c,
                `|entry A i j - entry A j i| <= atol + rtol F * `|entry A j i|]).
Proof.
move=> wA; have wT := wf_rows_transpose wA.
rewrite /is_symmetric transpose_Array2 bind_Ok /equal /isclose.
rewrite broadcast2_Array2 /= (all_rows_map2P _ wA wT).
congr (Ok (Scalar _)); apply: eq_forallb => i; apply: eq_forallb => j.
by rewrite (entry_transpose wA).
Qed.

(** X15: [is_skew_symmetric] on a square matrix answers true exactly when
    every entry is within the tolerance of the negated mirrored entry. *)
Theorem is_skew_symmetric_entrywise c A (atol : F) :
  wf_rows c c A ->
  is_skew_symmetric (Array2 c c A) atol =
  Ok (Scalar [forall i : 'I_c, forall j : 'I_c,
                `|entry A i j + entry A j i| <= atol + rtol F * `|entry A j i|]).
Proof.
move=> wA; have wT := wf_rows_transpose wA.
have wN := wf_rows_map (fun x => - x) wT.
rewrite /is_skew_symmetric transpose_Array2 bind_Ok /equal /isclose /neg /=.
rewrite broadcast2_Array2 /= (all_rows_map2P _ wA wN).
congr (Ok (Scalar _)); apply: eq_forallb => i; apply: eq_forallb => j.
by rewrite (entry_map _ wT) // (entry_transpose wA) // opprK normrN.
Qed.

Lemma negK X : neg (neg X) = X.
Proof.
case: X => [r c A|k r c s] /=; congr (_ _).
  rewrite -map_comp -[RHS]map_id; apply: eq_map => row /=.
  by rewrite -map_comp -[RHS]map_id; apply: eq_map => x /=; rewrite opprK.
rewrite -map_comp -[RHS]map_id; apply: eq_map => M /=.
rewrite -map_comp -[RHS]map_id; apply: eq_map => row /=.
by rewrite -map_comp -[RHS]map_id; apply: eq_map => x /=; rewrite opprK.
Qed.

(** X16: a matrix or batch that equals its transpose passes [is_symmetric],
    and one that equals the negation of its transpose passes
    [is_skew_symmetric], for every tolerance that is not negative. *)
Theorem exact_symmetry_passes X (atol : F) :
  wf X -> 0 <= atol ->
  (transpose X = Ok X -> is_symmetric X atol = Ok (all_true_like X)) /\
  (transpose X = Ok (neg X) ->
   is_skew_symmetric X atol = Ok (all_true_like X)).
Proof.
move=> wX Ha; split=> E.
  by rewrite /is_symmetric E bind_Ok equal_refl.
by rewrite /is_skew_symmetric E bind_Ok negK equal_refl.
Qed.

Lemma bdim_none r c :
  r != c -> r != 1%N -> c != 1%N -> bdim r c = None.
Proof. by rewrite /bdim => /negbTE -> /negbTE -> /negbTE ->. Qed.

Lemma broadcast2_mismatch (T U : Type) (f : T -> T -> U) (a b : ndarray T) r c :
  matrix_extents a = (r, c) -> matrix_extents b = (c, r) ->
  r != c -> r != 1%N -> c != 1%N ->
  broadcast2 f a b = Err ValueError.
Proof.
move=> Ea Eb Hrc Hr Hc; rewrite /broadcast2.
case: a b Ea Eb => [ra ca A|ka ra ca s] [rb cb B|kb rb cb t] /= [-> ->] [-> ->];
  by rewrite (bdim_none Hrc Hr Hc); case: (bdim _ _).
Qed.

Lemma transpose_extents X :
  exists T : ndarray F,
    transpose X = Ok T /\
    matrix_extents T = ((matrix_extents X).2, (matrix_extents X).1).
Proof. by case: X => [r c A|k r c s]; eexists; split. Qed.

(** X17: on a matrix or batch that is not square and has no matrix extent
    equal to 1, the four symmetry operations all fail with a value error. *)
Theorem symmetry_operations_need_square X (atol : F) r c :
  matrix_extents X = (r, c) -> r != c -> r != 1%N -> c != 1%N ->
  [/\ to_symmetric X = Err ValueError,
      to_skew_symmetric X = Err ValueError,
      is_symmetric X atol = Err ValueError &
      is_skew_symmetric X atol = Err ValueError].
Proof.
move=> EX Hrc Hr Hc; case: (transpose_extents X) => T [ET].
rewrite EX /= => ETx.
have ENx : matrix_extents (neg T) = (c, r) by case: (T) ETx.
rewrite /to_symmetric /to_skew_symmetric /is_symmetric /is_skew_symmetric.
rewrite ET !bind_Ok /add /sub /equal /isclose.
by rewrite !(broadcast2_mismatch _ EX ETx) // (broadcast2_mismatch _ EX ENx).
Qed.

End SymmetryTests.

Lemma is_symmetric_entrywise_witness :
  is_symmetric mat_a (1 : rat) =
  Ok (Scalar [forall i : 'I_2, forall j : 'I_2,
                (`|entry rows_a i j - entry rows_a j i|
                 <= 1 + rtol rat * `|entry rows_a j i|)%R]).
Proof. exact: (@is_symmetric_entrywise rat 2 rows_a 1%R isT). Defined.

Lemma is_skew_symmetric_entrywise_witness :
  is_skew_symmetric mat_b (1 : rat) =
  Ok (Scalar [forall i : 'I_2, forall j : 'I_2,
                (`|entry rows_b i j + entry rows_b j i|
                 <= 1 + rtol rat * `|entry rows_b j i|)%R]).
Proof. exact: (@is_skew_symmetric_entrywise rat 2 rows_b 1%R isT). Defined.

Lemma exact_symmetry_passes_witness :
  is_symmetric mat_s (1 : rat) = Ok (all_true_like mat_s) /\
  is_skew_symmetric mat_b (1 : rat) = Ok (all_true_like mat_b).
Proof.
split.
  case: (@exact_symmetry_passes rat mat_s 1%R isT (@ler01 _)) => H _.
  exact: (H (erefl _)).
case: (@exact_symmetry_passes rat mat_b 1%R isT (@ler01 _)) => _ H.
by apply: H; vm_compute.
Defined.

Lemma symmetry_operations_need_square_witness :
  [/\ to_symmetric mat_2_3 = Err ValueError,
      to_skew_symmetric mat_2_3 = Err ValueError,
      is_symmetric mat_2_3 (1 : rat) = Err ValueError &
      is_skew_symmetric mat_2_3 (1 : rat) = Err ValueError].
Proof.
exact: (@symmetry_operations_need_square rat mat_2_3 1%R 2 3 (erefl _)
          isT isT isT).
Defined.

(** ** The symmetric and skew-symmetric parts as projections *)

Section Projections.

Variable F : realFieldType.

Local Open Scope ring_scope.

Implicit Types (A B : seq (seq F)) (X : ndarray F) (k r c : nat).

Lemma eq_map_all (T U : eqType) (f g : T -> U) (s : seq T) :
  [seq f x | x <- s] = [seq g x | x <- s] <-> all (fun x => f x == g x) s.
Proof.
split=> [|/allP Hall]; last by apply/eq_in_map => x /Hall /eqP.
by elim: s => [|x s IH] //= [-> /IH ->]; rewrite eqxx.
Qed.

Lemma map_fixed_all (T : eqType) (f : T -> T) (s : seq T) :
  [seq f x | x <- s] = s <-> all (fun x => f x == x) s.
Proof. by rewrite -{2}[s]map_id; apply: eq_map_all. Qed.

Lemma neg_rowsK A : neg_rows (neg_rows A) = A.
Proof.
rewrite /neg_rows -map_comp -[RHS]map_id; apply: eq_map => row /=.
by rewrite -map_comp -[RHS]map_id; apply: eq_map => x /=; rewrite opprK.
Qed.

Lemma sym_rows_fixed c A :
  wf_rows c c A -> (sym_rows c A == A) = (transpose_rows c A == A).
Proof.
move=> wA; apply/eqP/eqP => E.
  by rewrite -{1}E sym_rows_transpose.
apply: (@to_mx_inj _ c c) => //; first exact: wf_sym_rows.
rewrite to_mx_sym // -(to_mx_transpose wA) E.
by apply/matrixP => i j; rewrite !mxE half_double.
Qed.

Lemma skew_rows_fixed c A :
  wf_rows c c A -> (skew_rows c A == A) = (transpose_rows c A == neg_rows A).
Proof.
move=> wA; apply/eqP/eqP => E.
  by rewrite -[LHS]neg_rowsK -{1}E [X in neg_rows X]skew_rows_transpose // E.
apply: (@to_mx_inj _ c c) => //; first exact: wf_skew_rows.
rewrite to_mx_skew // -(to_mx_transpose wA) E to_mx_neg_rows // opprK.
by apply/matrixP => i j; rewrite !mxE half_double.
Qed.

Lemma skew_of_sym_rows c A :
  wf_rows c c A -> skew_rows c (sym_rows c A) = const_rows c c 0.
Proof.
move=> wA; have wS := wf_sym_rows wA.
apply: (@to_mx_inj _ c c); [exact: wf_skew_rows | exact: wf_const_rows |].
rewrite to_mx_skew // -(to_mx_transpose wS) sym_rows_transpose //.
by rewrite subrr scaler0 to_mx_const0.
Qed.

Lemma sym_of_skew_rows c A :
  wf_rows c c A -> sym_rows c (skew_rows c A) = const_rows c c 0.
Proof.
move=> wA; have wK := wf_skew_rows wA.
apply: (@to_mx_inj _ c c); [exact: wf_sym_rows | exact: wf_const_rows |].
rewrite to_mx_sym // -(to_mx_transpose wK).
have -> : transpose_rows c (skew_rows c A) = neg_rows (skew_rows c A).
  by rewrite -[LHS]neg_rowsK [X in neg_rows X]skew_rows_transpose.
by rewrite to_mx_neg_rows // subrr scaler0 to_mx_const0.
Qed.

Lemma sym_of_sym_rows c A :
  wf_rows c c A -> sym_rows c (sym_rows c A) = sym_rows c A.
Proof.
move=> wA; apply/eqP; rewrite sym_rows_fixed ?wf_sym_rows //.
by rewrite sym_rows_transpose.
Qed.

Lemma skew_of_skew_rows c A :
  wf_rows c c A -> skew_rows c (skew_rows c A) = skew_rows c A.
Proof.
move=> wA; apply/eqP; rewrite skew_rows_fixed ?wf_skew_rows //.
by rewrite -[X in X == _]neg_rowsK [X in neg_rows X]skew_rows_transpose.
Qed.

(** X18: [to_symmetric] returns its argument unchanged exactly when the
    argument equals its own transpose. *)
Theorem to_symmetric_fixed_points X :
  wf X -> is_square X -> to_symmetric X = Ok X <-> transpose X = Ok X.
Proof.
case: X => [r c A|k r c s] wX /eqP Erc; subst r.
  rewrite to_symmetric_Array2 transpose_Array2.
  by split=> -[/eqP E]; congr (Ok (Array2 _ _ _)); apply/eqP;
     rewrite ?sym_rows_fixed // -sym_rows_fixed.
case/andP: wX => _ ws; rewrite to_symmetric_Array3 transpose_Array3.
split=> -[/map_fixed_all E]; congr (Ok (Array3 _ _ _ _)); apply/map_fixed_all.
  by rewrite -(eq_in_all (a1 := fun A => sym_rows c A == A)) // => A /(allP ws);
     apply: sym_rows_fixed.
by rewrite (eq_in_all (a2 := fun A => transpose_rows c A == A)) // => A /(allP ws);
   apply: sym_rows_fixed.
Qed.

(** X19: [to_skew_symmetric] returns its argument unchanged exactly when the
    transpose of the argument is its negation. *)
Theorem to_skew_symmetric_fixed_points X :
  wf X -> is_square X ->
  to_skew_symmetric X = Ok X <-> transpose X = Ok (neg X).
Proof.
case: X => [r c A|k r c s] wX /eqP Erc; subst r.
  rewrite to_skew_symmetric_Array2 transpose_Array2 /= -/(neg_rows A).
  by split=> -[/eqP E]; congr (Ok (Array2 _ _ _)); apply/eqP;
     rewrite ?skew_rows_fixed // -skew_rows_fixed.
case/andP: wX => _ ws; rewrite to_skew_symmetric_Array3 transpose_Array3 /=.
have Hfix A : A \in s ->
    (skew_rows c A == A) = (transpose_rows c A == neg_rows A).
  by move/(allP ws); apply: skew_rows_fixed.
split=> [[/map_fixed_all E]|[/eq_map_all E]]; congr (Ok (Array3 _ _ _ _)).
  by apply/eq_map_all; rewrite -(eq_in_all Hfix).
by apply/map_fixed_all; rewrite (eq_in_all Hfix).
Qed.

(** X20: taking the symmetric part twice, or the skew-symmetric part twice,
    changes nothing more; the skew-symmetric part of a symmetric part and
    the symmetric part of a skew-symmetric part are zero. *)
Theorem symmetric_parts_are_projections X :
  wf X -> is_square X ->
  [/\ (S <- to_symmetric X ;; to_symmetric S) = to_symmetric X,
      (K <- to_skew_symmetric X ;; to_skew_symmetric K) = to_skew_symmetric X,
      (S <- to_symmetric X ;; to_skew_symmetric S) = Ok (zeros_like X) &
      (K <- to_skew_symmetric X ;; to_symmetric K) = Ok (zeros_like X)].
Proof.
case: X => [r c A|k r c s] wX /eqP Erc; subst r.
  rewrite !(to_symmetric_Array2, to_skew_symmetric_Array2, bind_Ok).
  rewrite sym_of_sym_rows // skew_of_skew_rows // skew_of_sym_rows //.
  by rewrite sym_of_skew_rows.
case/andP: wX => /eqP sk ws.
rewrite !(to_symmetric_Array3, to_skew_symmetric_Array3, bind_Ok) -!map_comp.
split; congr (Ok (Array3 _ _ _ _)).
- by apply/eq_in_map => A /(allP ws) /sym_of_sym_rows.
- by apply/eq_in_map => A /(allP ws) /skew_of_skew_rows.
- by rewrite -sk; apply: map_cst_in => A /(allP ws) /skew_of_sym_rows.
- by rewrite -sk; apply: map_cst_in => A /(allP ws) /sym_of_skew_rows.
Qed.

End Projections.

Lemma to_symmetric_fixed_points_witness :
  to_symmetric mat_s = Ok mat_s <-> transpose mat_s = Ok mat_s.
Proof. exact: (@to_symmetric_fixed_points rat mat_s isT isT). Defined.

Lemma to_skew_symmetric_fixed_points_witness :
  to_skew_symmetric mat_b = Ok mat_b <-> transpose mat_b = Ok (neg mat_b).
Proof. exact: (@to_skew_symmetric_fixed_points rat mat_b isT isT). Defined.

Lemma symmetric_parts_are_projections_witness :
  [/\ (S <- to_symmetric batch_ab ;; to_symmetric S) = to_symmetric batch_ab,
      (K <- to_skew_symmetric batch_ab ;; to_skew_symmetric K) =
      to_skew_symmetric batch_ab,
      (S <- to_symmetric batch_ab ;; to_skew_symmetric S) =
      Ok (zeros_like batch_ab) &
      (K <- to_skew_symmetric batch_ab ;; to_symmetric K) =
      Ok (zeros_like batch_ab)].
Proof. exact: (@symmetric_parts_are_projections rat batch_ab isT isT). Defined.

(** ** The inner product as a bilinear form *)

Section InnerProductMore.

Variable F : realFieldType.

Local Open Scope ring_scope.

Implicit Types (A B C : seq (seq F)) (X : ndarray F) (k r c : nat).

Lemma sum_rows_mulE r c A B :
  wf_rows r c A -> wf_rows r c B ->
  sum_rows (map2 (map2 (fun x y => x * y)) A B) = frobenius r c A B.
Proof.
move=> wA wB; rewrite (sum_rowsE (wf_rows_map2 _ wA wB)).
apply: eq_bigr => i _; apply: eq_bigr => j _.
by rewrite (entry_map2 _ wA wB).
Qed.

Lemma inner_product_Array2 (self : MatricesMetric) r c A B
    (base_point : option (ndarray F)) :
  wf_rows r c A -> wf_rows r c B ->
  inner_product self (Array2 r c A) (Array2 r c B) base_point =
  Ok (Scalar (frobenius r c A B)).
Proof.
by move=> wA wB; rewrite /inner_product einsum_Array2 (sum_rows_mulE wA wB).
Qed.

(** X21: on two batches of one shape the inner product is taken element by
    element: one sum of entry products per pair of batch elements. *)
Theorem inner_product_batch (self : MatricesMetric) k r c
    (s t : seq (seq (seq F))) (base_point : option (ndarray F)) :
  wf (Array3 k r c s) -> wf (Array3 k r c t) ->
  inner_product self (Array3 k r c s) (Array3 k r c t) base_point =
  Ok (Vector (map2 (frobenius r c) s t)).
Proof.
case/andP=> _ ws /andP [_ wt].
rewrite /inner_product /einsum_ij_ij broadcast2_Array3 bind_Ok map_map2.
congr (Ok (Vector _)).
by apply: (eq_in_map2 _ ws wt) => A B; apply: sum_rows_mulE.
Qed.

Lemma frobeniusDl r c A B C :
  wf_rows r c A -> wf_rows r c B ->
  frobenius r c (map2 (map2 (fun x y => x + y)) A B) C =
  frobenius r c A C + frobenius r c B C.
Proof.
move=> wA wB; rewrite /frobenius -big_split /=; apply: eq_bigr => i _.
rewrite -big_split /=; apply: eq_bigr => j _.
by rewrite (entry_map2 _ wA wB) // mulrDl.
Qed.

Lemma frobeniusZl r c (a : F) A C :
  wf_rows r c A ->
  frobenius r c [seq [seq a * x | x <- row] | row <- A] C =
  a * frobenius r c A C.
Proof.
move=> wA; rewrite /frobenius mulr_sumr; apply: eq_bigr => i _.
rewrite mulr_sumr; apply: eq_bigr => j _.
by rewrite (entry_map _ wA) // mulrA.
Qed.

(** X22: the inner product is additive and homogeneous in its first
    argument. *)
Theorem inner_product_linear (self : MatricesMetric) r c A B C (a : F)
    (base_point : option (ndarray F)) :
  wf_rows r c A -> wf_rows r c B -> wf_rows r c C ->
  (S <- add (Array2 r c A) (Array2 r c B) ;;
   inner_product self S (Array2 r c C) base_point) =
  Ok (Scalar (frobenius r c A C + frobenius r c B C)) /\
  inner_product self (scale a (Array2 r c A)) (Array2 r c C) base_point =
  Ok (Scalar (a * frobenius r c A C)).
Proof.
move=> wA wB wC; rewrite /add broadcast2_Array2 bind_Ok /=.
rewrite !inner_product_Array2 ?wf_rows_map2 ?wf_rows_map //.
by rewrite frobeniusDl // frobeniusZl.
Qed.

Lemma frobenius_transpose r c A B :
  wf_rows r c A -> wf_rows r c B ->
  frobenius c r (transpose_rows c A) (transpose_rows c B) = frobenius r c A B.
Proof.
move=> wA wB; rewrite /frobenius exchange_big /=.
apply: eq_bigr => i _; apply: eq_bigr => j _.
by rewrite (entry_transpose wA) // (entry_transpose wB).
Qed.

(** X23: transposing both arguments does not change the inner product. *)
Theorem inner_product_transpose (self : MatricesMetric) r c A B
    (base_point : option (ndarray F)) :
  wf_rows r c A -> wf_rows r c B ->
  (TA <- transpose (Array2 r c A) ;; TB <- transpose (Array2 r c B) ;;
   inner_product self TA TB base_point) =
  inner_product self (Array2 r c A) (Array2 r c B) base_point.
Proof.
move=> wA wB; rewrite !transpose_Array2 !bind_Ok.
rewrite !inner_product_Array2 ?wf_rows_transpose //.
by rewrite frobenius_transpose.
Qed.

(** X24: the symmetric part and the skew-symmetric part of a square matrix
    are orthogonal: their inner product is zero. *)
Theorem symmetric_skew_orthogonal (self : MatricesMetric) c A
    (base_point : option (ndarray F)) :
  wf_rows c c A ->
  (S <- to_symmetric (Array2 c c A) ;;
   K <- to_skew_symmetric (Array2 c c A) ;;
   inner_product self S K base_point) = Ok (Scalar 0).
Proof.
move=> wA; have wS := wf_sym_rows wA; have wK := wf_skew_rows wA.
rewrite to_symmetric_Array2 to_skew_symmetric_Array2 !bind_Ok.
rewrite inner_product_Array2 //; congr (Ok (Scalar _)).
set S := sym_rows c A in wS *; set K := skew_rows c A in wK *.
have trK : transpose_rows c K = neg_rows K.
  by rewrite -[LHS]neg_rowsK [X in neg_rows X]skew_rows_transpose.
have E : frobenius c c S K = - frobenius c c S K.
  rewrite -{1}(frobenius_transpose wS wK) sym_rows_transpose // trK.
  rewrite /frobenius -sumrN; apply: eq_bigr => i _.
  rewrite -sumrN; apply: eq_bigr => j _.
  by rewrite /neg_rows (entry_map _ wK) // mulrN.
by apply/eqP; rewrite -eqNr -E.
Qed.

End InnerProductMore.

Lemma inner_product_batch_witness :
  inner_product (metric space_2_3) batch_ab batch_ab None =
  Ok (Vector (map2 (frobenius 2 2) [:: rows_a; rows_b] [:: rows_a; rows_b])).
Proof.
exact: (@inner_product_batch rat (metric space_2_3) 2 2 2 [:: rows_a; rows_b]
          [:: rows_a; rows_b] None isT isT).
Defined.

Lemma inner_product_linear_witness :
  (S <- add mat_a mat_b ;; inner_product (metric space_2_3) S mat_s None) =
  Ok (Scalar (frobenius 2 2 rows_a rows_s + frobenius 2 2 rows_b rows_s)%R) /\
  inner_product (metric space_2_3) (scale (2%:R)%R mat_a) mat_s None =
  Ok (Scalar (2%:R * frobenius 2 2 rows_a rows_s)%R).
Proof.
exact: (@inner_product_linear rat (metric space_2_3) 2 2 rows_a rows_b rows_s
          (2%:R)%R None isT isT isT).
Defined.

Lemma inner_product_transpose_witness :
  (TA <- transpose mat_2_3 ;; TB <- transpose mat_2_3 ;;
   inner_product (metric space_2_3) TA TB None) =
  inner_product (metric space_2_3) mat_2_3 mat_2_3 None.
Proof.
exact: (@inner_product_transpose rat (metric space_2_3) 2 3 rows_2_3 rows_2_3
          None isT isT).
Defined.

Lemma symmetric_skew_orthogonal_witness :
  (S <- to_symmetric mat_a ;; K <- to_skew_symmetric mat_a ;;
   inner_product (metric space_2_3) S K None) = Ok (Scalar (0 : rat)%R).
Proof.
exact: (@symmetric_skew_orthogonal rat (metric space_2_3) 2 rows_a None isT).
Defined.

(** ** The Cauchy-Schwarz inequality *)

Section CauchySchwarz.

Variable F : realFieldType.
Variables r c : nat.

Local Open Scope ring_scope.

Implicit Types (M N : 'M[F]_(r, c)) (A B : seq (seq F)).

Local Notation form := (@mx_frobenius F r c).

Lemma frobenius_form A B :
  frobenius r c A B = form (to_mx r c A) (to_mx r c B).
Proof.
by apply: eq_bigr => i _; apply: eq_bigr => j _; rewrite !mxE.
Qed.

Lemma form_sym M N : form M N = form N M.
Proof.
by apply: eq_bigr => i _; apply: eq_bigr => j _; rewrite mulrC.
Qed.

Lemma form_linear_r M N1 N2 (a b : F) :
  form M (a *: N1 - b *: N2) = a * form M N1 - b * form M N2.
Proof.
rewrite /mx_frobenius !mulr_sumr -sumrB; apply: eq_bigr => i _.
rewrite !mulr_sumr -sumrB; apply: eq_bigr => j _.
by rewrite !mxE mulrBr !mulrA ![_ * a]mulrC ![_ * b]mulrC.
Qed.

Lemma form_ge0 M : 0 <= form M M.
Proof.
apply: sumr_ge0 => i _; apply: sumr_ge0 => j _.
by rewrite -expr2 sqr_ge0.
Qed.

Lemma form_definite M N : form M M = 0 -> form M N = 0.
Proof.
move=> M0; rewrite /mx_frobenius big1 // => i _; rewrite big1 // => j _.
have row_ge0 (i' : 'I_r) : 0 <= \sum_j M i' j * M i' j.
  by apply: sumr_ge0 => j' _; rewrite -expr2 sqr_ge0.
have /(_ i isT) Hrow := psumr_eq0P (fun i' _ => row_ge0 i') M0.
have sq_ge0 (j' : 'I_c) : 0 <= M i j' * M i j' by rewrite -expr2 sqr_ge0.
have /(_ j isT)/eqP := psumr_eq0P (fun j' _ => sq_ge0 j') Hrow.
by rewrite -expr2 sqrf_eq0 => /eqP ->; rewrite mul0r.
Qed.

Lemma form_cauchy_schwarz M N : form M N ^+ 2 <= form M M * form N N.
Proof.
set x := form M M; set y := form M N; set z := form N N.
have Hx : 0 <= x := form_ge0 M.
move: Hx; rewrite le0r => /orP [/eqP x0|xpos].
  by rewrite /y (form_definite N x0) x0 mul0r expr0n.
pose P := x *: N - y *: M.
have EP : form P P = x * (x * z - y * y).
  rewrite {2}/P form_linear_r ![form P _]form_sym /P !form_linear_r.
  rewrite [form N M]form_sym -/x -/y -/z.
  by rewrite [x * y]mulrC subrr mulr0 subr0.
have := form_ge0 P; rewrite EP pmulr_rge0 // subr_ge0.
by rewrite expr2.
Qed.

(** X25: the inner product satisfies the Cauchy-Schwarz inequality: the
    square of the inner product of two tangent vectors is at most the
    product of their inner products with themselves. *)
Theorem inner_product_cauchy_schwarz (self : MatricesMetric) A B
    (base_point : option (ndarray F)) :
  wf_rows r c A -> wf_rows r c B ->
  exists ab aa bb : F,
    [/\ inner_product self (Array2 r c A) (Array2 r c B) base_point =
        Ok (Scalar ab),
        inner_product self (Array2 r c A) (Array2 r c A) base_point =
        Ok (Scalar aa),
        inner_product self (Array2 r c B) (Array2 r c B) base_point =
        Ok (Scalar bb) &
        ab ^+ 2 <= aa * bb].
Proof.
move=> wA wB.
exists (frobenius r c A B), (frobenius r c A A), (frobenius r c B B).
rewrite !inner_product_Array2 //; split=> //.
by rewrite !frobenius_form form_cauchy_schwarz.
Qed.

End CauchySchwarz.

Lemma inner_product_cauchy_schwarz_witness :
  exists ab aa bb : rat,
    [/\ inner_product (metric space_2_3) mat_2_3 mat_2_3b None =
        Ok (Scalar ab),
        inner_product (metric space_2_3) mat_2_3 mat_2_3 None = Ok (Scalar aa),
        inner_product (metric space_2_3) mat_2_3b mat_2_3b None =
        Ok (Scalar bb) &
        (ab ^+ 2 <= aa * bb)%R].
Proof.
exact: (@inner_product_cauchy_schwarz rat 2 3 (metric space_2_3) rows_2_3
          rows_2_3b None isT isT).
Defined.

(** ** The congruence action as a group action *)

Section CongruentMore.

Variable F : realFieldType.

Local Open Scope ring_scope.

Implicit Types (A B C : seq (seq F)) (c : nat).

Lemma congruent_rows_compose c A B C :
  wf_rows c c A -> wf_rows c c B -> wf_rows c c C ->
  congruent_rows c (congruent_rows c A B) C =
  congruent_rows c A (matmul_rows c C B).
Proof.
move=> wA wB wC; have wCB := wf_rows_matmul c B wC.
have wP := wf_congruent_rows A wB.
apply: (@to_mx_inj _ c c); [exact: wf_congruent_rows | exact: wf_congruent_rows |].
rewrite !to_mx_congruent // (to_mx_matmul wC wB) trmx_mul.
by rewrite !mulmxA.
Qed.

(** X26: acting with [B] and then with [C] is acting with the product
    [mul(C, B)]. *)
Theorem congruent_compose c A B C :
  wf_rows c c A -> wf_rows c c B -> wf_rows c c C ->
  exists P : ndarray F,
    (AB <- congruent (Array2 c c A) (Array2 c c B) ;;
     congruent AB (Array2 c c C)) = Ok P /\
    (CB <- mul [:: Array2 c c C; Array2 c c B] ;;
     congruent (Array2 c c A) CB) = Ok P.
Proof.
move=> wA wB wC.
exists (Array2 c c (congruent_rows c (congruent_rows c A B) C)).
rewrite congruent_Array2 bind_Ok congruent_Array2 mul2 matmul_Array2 bind_Ok.
by rewrite congruent_Array2 (congruent_rows_compose wA wB wC).
Qed.

(** X27: the congruence action keeps a skew-symmetric matrix
    skew-symmetric. *)
Theorem congruent_preserves_skew_symmetry c A B :
  wf_rows c c A -> wf_rows c c B ->
  transpose (Array2 c c A) = Ok (neg (Array2 c c A)) ->
  exists P : ndarray F,
    congruent (Array2 c c A) (Array2 c c B) = Ok P /\
    transpose P = Ok (neg P).
Proof.
move=> wA wB; rewrite transpose_Array2 => -[skewA].
exists (Array2 c c (congruent_rows c A B)); rewrite congruent_Array2.
split=> //; rewrite transpose_Array2 /=; congr (Ok (Array2 _ _ _)).
have wP := wf_congruent_rows A wB.
apply: (@to_mx_inj _ c c); [exact: wf_rows_transpose | exact: wf_rows_map |].
rewrite to_mx_transpose // to_mx_neg // to_mx_congruent //.
rewrite !trmx_mul trmxK mulmxA -(to_mx_transpose wA) skewA to_mx_neg //.
by rewrite mulmxN mulNmx.
Qed.

End CongruentMore.

Lemma congruent_compose_witness :
  exists P : ndarray rat,
    (AB <- congruent mat_s mat_a ;; congruent AB mat_b) = Ok P /\
    (CB <- mul [:: mat_b; mat_a] ;; congruent mat_s CB) = Ok P.
Proof.
exact: (@congruent_compose rat 2 rows_s rows_a rows_b isT isT isT).
Defined.

Lemma congruent_preserves_skew_symmetry_witness :
  exists P : ndarray rat,
    congruent mat_k mat_a = Ok P /\ transpose P = Ok (neg P).
Proof.
apply: (@congruent_preserves_skew_symmetry rat 2 rows_k rows_a isT isT).
by vm_compute.
Defined.

(** ** A row vector is broadcast, not rejected *)

Section RowVector.

Variable F : realFieldType.

Local Open Scope ring_scope.

Lemma transpose_rows_row c (row : seq F) :
  size row = c -> transpose_rows c [:: row] = [seq [:: x] | x <- row].
Proof.
move=> sc; apply: (@eq_from_nth _ [::]).
  by rewrite !size_map size_iota sc.
rewrite size_map size_iota => j Hj.
rewrite (nth_map 0%N) ?size_iota // nth_iota // add0n /=.
by rewrite (nth_map 0) ?sc.
Qed.

Lemma map2_nseql (T U V : Type) (f : T -> U -> V) (x : T) (t : seq U) :
  map2 f (nseq (size t) x) t = [seq f x y | y <- t].
Proof. by rewrite /map2; elim: t => [|y t IH] //=; rewrite IH. Qed.

(** X28: [to_symmetric] does not reject a row vector of shape (1, c): the
    vector is broadcast against its transpose, and the result is the (c, c)
    matrix of the half sums of two of its entries. *)
Theorem to_symmetric_row_vector c (row : seq F) :
  size row = c ->
  to_symmetric (Array2 1 c [:: row]) =
  Ok (Array2 c c [seq [seq 1 / 2%:R * (xj + xi) | xj <- row] | xi <- row]).
Proof.
move=> sc; rewrite /to_symmetric transpose_Array2 bind_Ok.
rewrite (transpose_rows_row sc) /add /broadcast2 /as_batch.
have -> : bdim 1 c = Some c by rewrite /bdim; case: eqP => [<-|].
rewrite bdim_id bdim_1r /from_batch /=; congr (Ok (Array2 _ _ _)).
have -> : stretch_mat 1 c c c [:: row] = nseq c row.
  by rewrite /stretch_mat /= stretch_id stretch1.
have -> : stretch_mat c 1 c c [seq [:: x] | x <- row] =
          [seq nseq c x | x <- row].
  rewrite /stretch_mat stretch_id -map_comp.
  by apply: eq_map => x /=; rewrite stretch1.
rewrite -{1}sc -[size row](size_map (nseq c)) map2_nseql -!map_comp.
apply: eq_map => xi /=; rewrite -sc map2_nseq -map_comp.
exact: eq_map.
Qed.

End RowVector.

Lemma to_symmetric_row_vector_witness :
  to_symmetric mat_1_3 =
  Ok (Array2 3 3 [seq [seq (1 / 2%:R * (xj + xi))%R | xj <- [:: 1; 2%:R; 4%:R]%R]
                 | xi <- [:: 1; 2%:R; 4%:R : rat]%R]).
Proof.
exact: (@to_symmetric_row_vector rat 3 [:: 1; 2%:R; 4%:R]%R (erefl _)).
Defined.

(** ** The sampler: negative counts and negative bounds *)

Section SamplingMore.

Variable F : realFieldType.
Variable rng : Type.
Variable random_sample : rng -> F * rng.

Local Open Scope ring_scope.

(** X29: a negative sample count makes [random_uniform] fail with a value
    error, on every space and for every bound, and draws nothing from the
    random source. *)
Theorem random_uniform_negative_count (self : Matrices) (n_samples : Z)
    (bound : F) (g : rng) :
  Z.lt n_samples 0 ->
  random_uniform random_sample self n_samples bound g = (Err ValueError, g).
Proof.
move=> Hneg; rewrite /random_uniform /rand.
have -> /= : Z.eqb n_samples 1 = false by apply/Z.eqb_neq; lia.
have -> // : nonneg n_samples = false.
by apply/negbTE/negP => /Z.leb_le; lia.
Qed.

Hypothesis random_sample_unit : forall g, in_unit (random_sample g).1.

Lemma flipped_range_scaled (bound u : F) :
  bound < 0 -> in_unit u -> in_flipped_range bound (bound * (u - 1 / 2%:R)).
Proof.
move=> Hb /andP [u0 u1]; rewrite /in_flipped_range mulrBr mulrA mulr1.
apply/andP; split.
  rewrite ltrBrDr -mulrDl -mulr2n -mulr_natr mulfK ?pnatr_eq0 //.
  by rewrite -{1}[bound]mulr1 ltr_nM2l.
rewrite -{2}[- _]add0r lerD2r.
by rewrite mulr_le0_ge0 // ltW.
Qed.

(** X30: for a negative bound the interval is mirrored: every sampled entry
    lies in (bound/2, -bound/2]. *)
Theorem random_uniform_negative_bound (vm vn : pyval) (self : Matrices)
    (n_samples : Z) (bound : F) (g : rng) (X : ndarray F) :
  Matrices_init vm vn = Ok self -> bound < 0 ->
  (random_uniform random_sample self n_samples bound g).1 = Ok X ->
  all_entries (in_flipped_range bound) X.
Proof.
move=> /Matrices_init_extents Hmn Hb; case Hs: (nonneg n_samples); last first.
  by rewrite random_uniform_Err ?Hs.
have Hrows (rows : seq (seq F)) : all (all in_unit) rows ->
    all (all (in_flipped_range bound))
      [seq [seq bound * (u - 1 / 2%:R) | u <- row] | row <- rows].
  move=> Hu; rewrite all_map; apply: sub_all Hu => row /= Hrow.
  by rewrite all_map; apply: sub_all Hrow => u; apply: flipped_range_scaled.
rewrite random_uniform_Ok //; case: (Z.eqb n_samples 1) => -[<-] /=.
  exact/Hrows/draws_rows_unit.
rewrite all_map; apply: all_draws => g' /=.
exact/Hrows/draws_rows_unit.
Qed.

End SamplingMore.

Lemma random_uniform_negative_count_witness :
  random_uniform lcg_sample space_2_3 (-2) (1 : rat) 3%N = (Err ValueError, 3%N).
Proof.
exact: (@random_uniform_negative_count rat nat lcg_sample space_2_3 (-2 : Z)
          1%R 3%N (erefl _)).
Defined.

Lemma random_uniform_negative_bound_witness :
  all_entries (in_flipped_range (- 1 : rat)%R) sample_mirrored.
Proof.
apply: (@random_uniform_negative_bound rat nat lcg_sample lcg_sample_unit
          (PyInt 2) (PyInt 3) space_2_3 (2 : Z) (- 1)%R 0%N sample_mirrored
          (erefl _)).
  by rewrite oppr_lt0 ltr01.
by vm_compute.
Defined.
